(** * Font previewer: style filtering, weight slider and preview cache

    A shallow embedding of the algorithmic parts of [src/main.py]
    (a PySide6 font previewer):

    - [FontLoader._filter_useable_styles]   (lines 79-109),
    - [FontPreviewWidget]                   (lines 112-265),
    - [MainWindow._update_font_weight] and
      [MainWindow._slider_value_to_weight]  (lines 668-690).

    Python [str] values are modelled as [string]; the model is exact on
    7-bit ASCII text (there [str.lower] maps A-Z to a-z and [str.isspace]
    holds for the codes 9-13, 28-31 and 32).  Python [int] is [Z].

    Qt is outside the program: the font engine and the raster backend are
    a record [QtEngine] of operations that may raise, and a pixmap is the
    list of the texts drawn on it.  Properties of the layout are stated for
    engines built from metrics that do not raise ([engine_of]); the
    handling of exceptions is stated for every engine. *)

From Stdlib Require Import ZArith List String Ascii Bool Arith Lia FinFun.
Import ListNotations.

Local Open Scope string_scope.
Local Open Scope Z_scope.

(* ===================================================================== *)
(** * Part I: definitions                                                  *)
(* ===================================================================== *)

(** ** Python string primitives *)

(** [bool(s)] for a string: non-empty. *)
Definition truthy (s : string) : bool :=
  match s with
  | EmptyString => false
  | String _ _ => true
  end.

(** One character of [str.lower()]. *)
Definition lower_char (c : ascii) : ascii :=
  let n := nat_of_ascii c in
  if ((65 <=? n) && (n <=? 90))%nat then ascii_of_nat (n + 32) else c.

(** [s.lower()] *)
Fixpoint lower (s : string) : string :=
  match s with
  | EmptyString => EmptyString
  | String c r => String (lower_char c) (lower r)
  end.

(** [needle in hay] on strings: [needle] starts at some position of [hay]. *)
Fixpoint contains (needle hay : string) : bool :=
  String.prefix needle hay ||
  match hay with
  | EmptyString => false
  | String _ r => contains needle r
  end.

(** [s in l] for a list of strings. *)
Definition str_in (s : string) (l : list string) : bool :=
  existsb (String.eqb s) l.

(** [c.isspace()] *)
Definition isspace (c : ascii) : bool :=
  let n := nat_of_ascii c in
  (((9 <=? n) && (n <=? 13)) || ((28 <=? n) && (n <=? 32)))%nat.

Definition newline : ascii := ascii_of_nat 10.
Definition NL : string := String newline EmptyString.

(** [s.replace('\n', ' \n ')] *)
Fixpoint replace_newline (s : string) : string :=
  match s with
  | EmptyString => EmptyString
  | String c r =>
      if Ascii.eqb c newline
      then " " ++ NL ++ " " ++ replace_newline r
      else String c (replace_newline r)
  end.

(** [s.split()]: the maximal runs of non-whitespace characters.  [cur] is
    the run being read. *)
Fixpoint split_from (cur s : string) : list string :=
  match s with
  | EmptyString => if truthy cur then [cur] else []
  | String c r =>
      if isspace c
      then (if truthy cur then cur :: split_from EmptyString r
            else split_from EmptyString r)
      else split_from (cur ++ String c EmptyString) r
  end.

Definition split (s : string) : list string := split_from EmptyString s.

(** [s.split('\n')]: the segments between newline characters (always at
    least one segment). *)
Fixpoint split_on_from (sep : ascii) (cur s : string) : list string :=
  match s with
  | EmptyString => [cur]
  | String c r =>
      if Ascii.eqb c sep
      then cur :: split_on_from sep EmptyString r
      else split_on_from sep (cur ++ String c EmptyString) r
  end.

Definition split_lines (s : string) : list string :=
  split_on_from newline EmptyString s.

Fixpoint lstrip (s : string) : string :=
  match s with
  | EmptyString => EmptyString
  | String c r => if isspace c then lstrip r else s
  end.

Fixpoint rstrip (s : string) : string :=
  match s with
  | EmptyString => EmptyString
  | String c r =>
      let r' := rstrip r in
      if negb (truthy r') && isspace c then EmptyString else String c r'
  end.

(** [s.strip()] *)
Definition strip (s : string) : string := lstrip (rstrip s).

(** [s[:-1]] *)
Fixpoint drop_last (s : string) : string :=
  match s with
  | EmptyString => EmptyString
  | String c EmptyString => EmptyString
  | String c r => String c (drop_last r)
  end.

(** [len(s)] *)
Definition len (s : string) : Z := Z.of_nat (String.length s).

(** [l[i]] on a Python list: negative indices count from the end, an index
    outside [-len, len) raises [IndexError] ([None]). *)
Definition py_index {A : Type} (l : list A) (i : Z) : option A :=
  let n := Z.of_nat (List.length l) in
  if 0 <=? i then nth_error l (Z.to_nat i)
  else if - n <=? i then nth_error l (Z.to_nat (n + i))
  else None.

(** ** FontLoader._filter_useable_styles (lines 79-109) *)

(** The local variables of the loop. *)
Record scan : Type := Scan {
  useful_styles : list string;
  regular_found : bool;
  bold_found : bool;
  italic_found : bool;
  bold_italic_found : bool
}.

Definition scan_init : scan := Scan [] false false false false.

(** The body of [for style in styles] (lines 89-107). *)
Definition scan_style (st : scan) (style : string) : scan :=
  let lower_style := lower style in
  if contains "regular" lower_style
     || (negb (regular_found st) && str_in lower_style ["normal"; "book"])
  then Scan (useful_styles st ++ [style]) true
            (bold_found st) (italic_found st) (bold_italic_found st)
  else if contains "bold" lower_style && contains "italic" lower_style
  then (if negb (bold_italic_found st)
        then Scan (useful_styles st ++ [style]) (regular_found st)
                  (bold_found st) (italic_found st) true
        else st)
  else if contains "bold" lower_style
  then (if negb (bold_found st)
        then Scan (useful_styles st ++ [style]) (regular_found st)
                  true (italic_found st) (bold_italic_found st)
        else st)
  else if contains "italic" lower_style
  then (if negb (italic_found st)
        then Scan (useful_styles st ++ [style]) (regular_found st)
                  (bold_found st) true (bold_italic_found st)
        else st)
  else if (List.length (useful_styles st) <? 4)%nat
  then Scan (useful_styles st ++ [style]) (regular_found st)
            (bold_found st) (italic_found st) (bold_italic_found st)
  else st.

(** The state after the whole loop. *)
Definition scan_styles (styles : list string) : scan :=
  fold_left scan_style styles scan_init.

(** [_filter_useable_styles(styles, font_db, family)]; the arguments
    [font_db] and [family] are not used by the body.  The result is
    [useful_styles[:4]]. *)
Definition _filter_useable_styles (styles : list string) : list string :=
  firstn 4 (useful_styles (scan_styles styles)).

(** The arm of the [if]/[elif] chain that a style name selects, given the
    current value of [regular_found]. *)
Inductive bucket : Type := Regular | BoldItalic | Bold | Italic | Overflow.

Definition bucket_eqb (a b : bucket) : bool :=
  match a, b with
  | Regular, Regular | BoldItalic, BoldItalic | Bold, Bold
  | Italic, Italic | Overflow, Overflow => true
  | _, _ => false
  end.

Definition bucket_of (regular_found : bool) (style : string) : bucket :=
  let lower_style := lower style in
  if contains "regular" lower_style
     || (negb regular_found && str_in lower_style ["normal"; "book"])
  then Regular
  else if contains "bold" lower_style && contains "italic" lower_style
  then BoldItalic
  else if contains "bold" lower_style then Bold
  else if contains "italic" lower_style then Italic
  else Overflow.

(** [in_bucket rf b style]: [style] selects arm [b] when [regular_found]
    is [rf]. *)
Definition in_bucket (rf : bool) (b : bucket) (style : string) : bool :=
  bucket_eqb (bucket_of rf style) b.

(** The three arms guarded by [if not ..._found]. *)
Definition guarded (b : bucket) : bool :=
  match b with
  | BoldItalic | Bold | Italic => true
  | Regular | Overflow => false
  end.

(** The flag that guards an arm. *)
Definition found_flag (b : bucket) (st : scan) : bool :=
  match b with
  | Regular => regular_found st
  | BoldItalic => bold_italic_found st
  | Bold => bold_found st
  | Italic => italic_found st
  | Overflow => false
  end.

(** What the scan maintains for a guarded arm [b] after reading [pre]:
    the names of the arm that are held are the first such name read, and
    the arm's flag tells whether one was read. *)
Definition arm_inv (rf : bool) (b : bucket) (pre : list string) (st : scan)
    : Prop :=
  filter (in_bucket rf b) (useful_styles st)
    = firstn 1 (filter (in_bucket rf b) pre)
  /\ found_flag b st = existsb (in_bucket rf b) pre.

(** ** MainWindow: the weight slider (lines 404-407, 668-690) *)

(** [QFont.Weight], in the order of the list [weights] (line 687). *)
Module Weight.
Inductive t : Type :=
  Thin | ExtraLight | Light | Normal | Medium | DemiBold | Bold
| ExtraBold | Black.

(** The position of a weight on the scale from lightest to heaviest. *)
Definition rank (w : t) : Z :=
  match w with
  | Thin => 0 | ExtraLight => 1 | Light => 2 | Normal => 3 | Medium => 4
  | DemiBold => 5 | Bold => 6 | ExtraBold => 7 | Black => 8
  end.
End Weight.

Definition weights : list Weight.t :=
  [Weight.Thin; Weight.ExtraLight; Weight.Light; Weight.Normal;
   Weight.Medium; Weight.DemiBold; Weight.Bold; Weight.ExtraBold;
   Weight.Black].

(** [int(value / 11.11)].  The quotient is a float; [int] truncates towards
    zero.  For an integer [value] with [|value| < 1111] the exact quotient
    [100 * value / 1111] is either 0 or at least 1/1111 away from every
    integer, far more than the rounding error of the division, so the
    truncation is that of the exact quotient.  The slider only produces
    0..99 ([setRange(0, 99)], line 405). *)
Definition int_div_11_11 (value : Z) : Z := Z.quot (value * 100) 1111.

(** [_slider_value_to_weight(value)] (lines 685-690); [None] is
    [IndexError]. *)
Definition _slider_value_to_weight (value : Z) : option Weight.t :=
  let index := int_div_11_11 value in
  py_index weights (Z.min index (Z.of_nat (List.length weights) - 1)).

(** The dictionary [weight_names] of [_update_font_weight] (lines 670-674):
    [(a, b, name)] stands for the entry [range(a, b): name]. *)
Definition weight_names : list (Z * Z * string) :=
  [(0, 12, "Thin"); (12, 25, "Extra Light"); (25, 38, "Light");
   (38, 50, "Normal"); (50, 62, "Medium"); (62, 75, "Semi Bold");
   (75, 88, "Bold"); (88, 100, "Extra Bold")].

(** [_update_font_weight(value)] (lines 668-683): the text given to
    [weight_label.setText]; the [for ... else] falls back to "Normal". *)
Fixpoint first_range (value : Z) (names : list (Z * Z * string)) : string :=
  match names with
  | [] => "Normal"
  | (a, b, name) :: rest =>
      if (a <=? value) && (value <? b) then name else first_range value rest
  end.

Definition _update_font_weight (value : Z) : string :=
  first_range value weight_names.

(** The slider as [_setup_ui] leaves it (lines 405-407):
    [setValue(50)  # Normal] and [QLabel("Normal")]. *)
Definition initial_slider_value : Z := 50.
Definition initial_weight_label : string := "Normal".

(** ** FontPreviewWidget (lines 112-265) *)

(** *** Exceptions *)

(** The outcome of Python code that may raise; [Raise e] carries the
    text of the exception. *)
Inductive result (A : Type) : Type :=
| Ok (a : A)
| Raise (e : string).
Arguments Ok {A} a.
Arguments Raise {A} e.

Definition bind {A B : Type} (c : result A) (k : A -> result B) : result B :=
  match c with
  | Ok a => k a
  | Raise e => Raise e
  end.

Notation "x <- c ;; k" := (bind c (fun x => k))
  (at level 61, c at next level, right associativity).

(** A loop body run over a list, stopping at the first exception. *)
Fixpoint for_each {A S : Type} (body : S -> A -> result S) (l : list A)
    (s : S) : result S :=
  match l with
  | [] => Ok s
  | x :: rest => s' <- body s x ;; for_each body rest s'
  end.

(** *** Qt values *)

Record QColor : Type := mkColor { red : Z; green : Z; blue : Z }.

(** [QFont(family, pointSize, weight)] followed by [setStyleName]. *)
Record QFont : Type := mkFont {
  family : string;
  pointSize : Z;
  weight : Weight.t;
  styleName : string
}.

(** One [painter.drawText(x, y, text)], with the painter's font and pen. *)
Record DrawText : Type := mkDraw {
  dt_x : Z;
  dt_y : Z;
  dt_text : string;
  dt_font : QFont;
  dt_pen : QColor
}.

(** A pixmap: its size and what was drawn on the transparent ground. *)
Record QPixmap : Type := mkPixmap {
  pm_width : Z;
  pm_height : Z;
  pm_ops : list DrawText
}.

Record QPainter : Type := mkPainter {
  p_font : QFont;
  p_pen : QColor;
  p_ops : list DrawText
}.

(** The font engine and the raster backend: every call may raise. *)
Record QtEngine : Type := mkEngine {
  horizontalAdvance : QFont -> string -> result Z;
  ascent : QFont -> result Z;
  lineSpacing : QFont -> result Z;
  rasterize : DrawText -> result unit
}.

(** Font metrics that never raise. *)
Record Metrics : Type := mkMetrics {
  adv : QFont -> string -> Z;
  asc : QFont -> Z;
  lsp : QFont -> Z
}.

Definition engine_of (m : Metrics) : QtEngine :=
  mkEngine (fun f s => Ok (adv m f s)) (fun f => Ok (asc m f))
           (fun f => Ok (lsp m f)) (fun _ => Ok tt).

Definition setFont (p : QPainter) (f : QFont) : QPainter :=
  mkPainter f (p_pen p) (p_ops p).

Definition drawText (env : QtEngine) (p : QPainter) (x y : Z) (s : string)
    : result QPainter :=
  let op := mkDraw x y s (p_font p) (p_pen p) in
  _ <- rasterize env op ;;
  Ok (mkPainter (p_font p) (p_pen p) (p_ops p ++ [op])).

(** *** The widget *)

(** The fields set by [__init__] (lines 119-125) and the widget's
    [rect()], which Qt keeps. *)
Record Widget : Type := mkWidget {
  font_family : string;
  font_style : string;
  text : string;
  font_size : Z;
  font_color : QColor;
  font_weight : Weight.t;
  cache_pixmap : option QPixmap;
  rect_width : Z;
  rect_height : Z
}.

Definition set_cache (w : Widget) (c : option QPixmap) : Widget :=
  mkWidget (font_family w) (font_style w) (text w) (font_size w)
           (font_color w) (font_weight w) c (rect_width w) (rect_height w).

(** [set_font_info] (lines 127-133); [update()] only schedules a later
    [paintEvent]. *)
Definition set_font_info (w : Widget) (family style text : string) : Widget :=
  mkWidget family style text (font_size w) (font_color w) (font_weight w)
           None (rect_width w) (rect_height w).

(** [set_font_properties] (lines 135-141). *)
Definition set_font_properties (w : Widget) (size : Z) (color : QColor)
    (weight : Weight.t) : Widget :=
  mkWidget (font_family w) (font_style w) (text w) size color weight
           None (rect_width w) (rect_height w).

(** [QWidget.resize]: the class does not override [resizeEvent], so a
    new size changes [rect()] and nothing else. *)
Definition resize (w : Widget) (width height : Z) : Widget :=
  mkWidget (font_family w) (font_style w) (text w) (font_size w)
           (font_color w) (font_weight w) (cache_pixmap w) width height.

(** *** Line breaking (lines 171-201) *)

Record wrap_state : Type := mkWrap {
  lines : list string;
  current_line : string
}.

(** The body of [for word in words] (lines 177-195). *)
Definition wrap_word (env : QtEngine) (font : QFont) (width : Z)
    (st : wrap_state) (word : string) : result wrap_state :=
  let current_line := current_line st in
  if String.eqb word NL then
    let lines1 :=
      if truthy (strip current_line)
      then (lines st ++ [strip current_line])%list else lines st in
    Ok (mkWrap (lines1 ++ [""]) "")
  else
    let test_line :=
      current_line ++ (if truthy current_line then " " else "") ++ word in
    a <- horizontalAdvance env font test_line ;;
    if a >? width then
      let lines1 :=
        if truthy current_line
        then (lines st ++ [current_line])%list else lines st in
      aw <- horizontalAdvance env font word ;;
      if aw >? width
      then Ok (mkWrap (lines1 ++ [word]) "")
      else Ok (mkWrap lines1 word)
    else Ok (mkWrap (lines st) test_line).

(** Lines 197-198. *)
Definition flush (st : wrap_state) : list string :=
  if truthy (strip (current_line st))
  then (lines st ++ [strip (current_line st)])%list else lines st.

(** The greedy pass (lines 174-198). *)
Definition wrap_words (env : QtEngine) (font : QFont) (width : Z)
    (words : list string) : result (list string) :=
  st <- for_each (wrap_word env font width) words (mkWrap [] "") ;;
  Ok (flush st).

(** Lines 171-201: the display lines of [text]. *)
Definition preview_lines (env : QtEngine) (font : QFont) (text : string)
    (width : Z) : result (list string) :=
  a <- horizontalAdvance env font text ;;
  if a >? width
  then wrap_words env font width (split (replace_newline text))
  else Ok (split_lines text).

(** *** The font name at the right (lines 229-257) *)

Definition font_name (w : Widget) : string :=
  font_family w ++ " - " ++ font_style w.

(** [QFont(self.font_family, max(self.font_size - 4, 8), self.font_weight)];
    no style name is set on it. *)
Definition small_font (w : Widget) : QFont :=
  mkFont (font_family w) (Z.max (font_size w - 4) 8) (font_weight w) "".

(** The [while] loop of lines 249-250.  Each round removes one character
    and needs [len(shortened_name) > 3], so [S (length font_name)] rounds
    of [fuel] are never used up. *)
Fixpoint shorten (env : QtEngine) (small : QFont) (available_width : Z)
    (fuel : nat) (shortened_name : string) : result string :=
  match fuel with
  | O => Ok shortened_name
  | S fuel' =>
      a <- horizontalAdvance env small (shortened_name ++ "...") ;;
      if (a >? available_width) && (len shortened_name >? 3)
      then shorten env small available_width fuel' (drop_last shortened_name)
      else Ok shortened_name
  end.

(** Lines 229-257 for one [line] with baseline [y]. *)
Definition draw_name (env : QtEngine) (w : Widget) (font : QFont)
    (p : QPainter) (line : string) (y : Z) : result QPainter :=
  let font_name := font_name w in
  let small_font := small_font w in
  let p := setFont p small_font in
  name_width <- horizontalAdvance env small_font font_name ;;
  let name_x := rect_width w - name_width - 10 in
  line_width <- horizontalAdvance env font line ;;
  let preview_text_end := 10 + line_width in
  p' <- (if name_x >? preview_text_end + 20 then
           a <- ascent env font ;;
           sa <- ascent env small_font ;;
           drawText env p name_x (y - (a - sa)) font_name
         else
           let available_width := Z.max 0 (name_x - preview_text_end - 20) in
           if available_width >? 30 then
             shortened_name <-
               shorten env small_font available_width
                       (S (String.length font_name)) font_name ;;
             a <- ascent env font ;;
             sa <- ascent env small_font ;;
             if len shortened_name <? len font_name
             then drawText env p (preview_text_end + 20) (y - (a - sa))
                           (shortened_name ++ "...")
             else drawText env p (preview_text_end + 20) (y - (a - sa))
                           font_name
           else Ok p) ;;
  Ok (setFont p' font).

(** *** The paint loop (lines 221-258) *)

(** [rows] pairs each line with its entry of [line_heights]; stopping
    with the painter as it is models [break]. *)
Fixpoint draw_lines (env : QtEngine) (w : Widget) (font : QFont)
    (rows : list (string * Z)) (p : QPainter) (y : Z) : result QPainter :=
  match rows with
  | [] => Ok p
  | (line, line_height) :: rest =>
      a <- ascent env font ;;
      if y - a + line_height >? rect_height w then Ok p
      else
        p1 <- drawText env p 10 y line ;;
        p2 <- draw_name env w font p1 line y ;;
        draw_lines env w font rest p2 (y + line_height)
  end.

(** Lines 204-209: one [lineSpacing()] per line. *)
Definition measure_heights (env : QtEngine) (font : QFont)
    (lines : list string) : result (list Z) :=
  for_each (fun hs _ => h <- lineSpacing env font ;; Ok (hs ++ [h])%list)
           lines [].

Definition sum (l : list Z) : Z := fold_left Z.add l 0.

(** Lines 155-156: [QFont(family, size, weight)] and [setStyleName]. *)
Definition main_font (w : Widget) : QFont :=
  mkFont (font_family w) (font_size w) (font_weight w) (font_style w).

(** The body of the [try] (lines 155-261). *)
Definition render (env : QtEngine) (w : Widget) : result QPixmap :=
  let font := main_font w in
  let painter := mkPainter font (font_color w) [] in
  let width := rect_width w - 20 in
  lines <- preview_lines env font (text w) width ;;
  line_heights <- measure_heights env font lines ;;
  let total_height := sum line_heights in
  y <- (if total_height >? rect_height w - 20
        then ascent env font
        else a <- ascent env font ;; Ok (10 + a)) ;;
  painter' <- draw_lines env w font (combine lines line_heights) painter y ;;
  Ok (mkPixmap (rect_width w) (rect_height w) (p_ops painter')).

(** What a call leaves behind for an observer: the entry into
    [_update_cache], the [print] of the handler (line 264) and the
    [drawPixmap] of [paintEvent] (line 150). *)
Inductive Event : Type :=
| UpdateCache
| Print (e : string)
| DrawPixmap (x y : Z) (pm : QPixmap).

(** [_update_cache] (lines 152-265): [try] / [except Exception]. *)
Definition _update_cache (env : QtEngine) (w : Widget)
    : Widget * list Event :=
  match render env w with
  | Ok pixmap => (set_cache w (Some pixmap), [UpdateCache])
  | Raise e => (set_cache w None, [UpdateCache; Print e])
  end.

(** [paintEvent] (lines 143-150); a [QPixmap] object is truthy. *)
Definition paintEvent (env : QtEngine) (w : Widget) : Widget * list Event :=
  let (w1, t1) :=
    match cache_pixmap w with
    | None => _update_cache env w
    | Some _ => (w, [])
    end in
  match cache_pixmap w1 with
  | Some pm => (w1, (t1 ++ [DrawPixmap 0 0 pm])%list)
  | None => (w1, t1)
  end.

(** The number of times [_update_cache] was entered. *)
Definition renders (t : list Event) : nat :=
  List.length
    (filter (fun e => match e with UpdateCache => true | _ => false end) t).

(** *** A fixed-pitch font for examples: every character is 10 wide, the
    ascent is the point size, lines are 4 further apart. *)
Definition fixed_pitch : Metrics :=
  mkMetrics (fun _ s => 10 * len s) (fun f => pointSize f)
            (fun f => pointSize f + 4).

(** An engine whose measurements raise. *)
Definition broken_engine : QtEngine :=
  mkEngine (fun _ _ => Raise "no metrics") (fun _ => Raise "no metrics")
           (fun _ => Raise "no metrics") (fun _ => Ok tt).

(** An engine that raises on every text that holds "...", and measures
    like [fixed_pitch] otherwise. *)
Definition no_ellipsis_engine : QtEngine :=
  mkEngine (fun _ s => if contains "..." s then Raise "ellipsis"
                       else Ok (10 * len s))
           (fun f => Ok (pointSize f)) (fun f => Ok (pointSize f + 4))
           (fun _ => Ok tt).

(** A widget for examples: black 24pt Arial Bold, nothing cached. *)
Definition sample_widget (text : string) (width height : Z) : Widget :=
  mkWidget "Arial" "Bold" text 24 (mkColor 0 0 0) Weight.Normal None
           width height.

(** ** Notions used in the statements *)

(** A word as [split] yields them: not empty, no whitespace. *)
Fixpoint nospace (s : string) : bool :=
  match s with
  | EmptyString => true
  | String c r => negb (isspace c) && nospace r
  end.

Definition is_word (s : string) : bool := truthy s && nospace s.

(** Words put on one line, a single space between neighbours. *)
Definition join (block : list string) : string := String.concat " " block.

(** A line of the greedy pass, as the block of words it holds, is right
    when it is not empty and either fits the width or is one word that is
    too wide by itself. *)
Definition line_ok (m : Metrics) (font : QFont) (width : Z)
    (block : list string) : Prop :=
  block <> []
  /\ (adv m font (join block) <= width
      \/ exists word, block = [word] /\ width < adv m font word).

(** The quantities of lines 236-245 under metrics that do not raise. *)
Definition name_x (m : Metrics) (w : Widget) : Z :=
  rect_width w - adv m (small_font w) (font_name w) - 10.

Definition preview_text_end (m : Metrics) (font : QFont) (line : string) : Z :=
  10 + adv m font line.

Definition available_width (m : Metrics) (w : Widget) (font : QFont)
    (line : string) : Z :=
  Z.max 0 (name_x m w - preview_text_end m font line - 20).

(** The font name as line 242 draws it beside a line with baseline [y]. *)
Definition name_op (m : Metrics) (w : Widget) (font : QFont) (pen : QColor)
    (y : Z) : DrawText :=
  mkDraw (name_x m w) (y - (asc m font - asc m (small_font w)))
         (font_name w) (small_font w) pen.

(** What one round of the paint loop draws: the line, then the font name
    if it stays clear of the line. *)
Definition row_ops (m : Metrics) (w : Widget) (font : QFont) (pen : QColor)
    (row : string * Z) : list DrawText :=
  let (line, y) := row in
  mkDraw 10 y line font pen
  :: (if name_x m w >? preview_text_end m font line + 20
      then [name_op m w font pen y] else []).

(** The lines that the loop reaches before [break], each with its
    baseline. *)
Fixpoint visible_rows (m : Metrics) (w : Widget) (font : QFont)
    (rows : list (string * Z)) (y : Z) : list (string * Z) :=
  match rows with
  | [] => []
  | (line, line_height) :: rest =>
      if y - asc m font + line_height >? rect_height w then []
      else (line, y) :: visible_rows m w font rest (y + line_height)
  end.

(** The first baseline (lines 212-218). *)
Definition start_y (m : Metrics) (w : Widget) (font : QFont)
    (line_heights : list Z) : Z :=
  if sum line_heights >? rect_height w - 20
  then asc m font else 10 + asc m font.

(** The placements of the font name among drawing operations. *)
Definition is_name_of (w : Widget) (op : DrawText) : bool :=
  String.eqb (dt_text op) (font_name w).

(** What the greedy pass maintains after the words [pre]: the finished
    lines are the blocks [done], the line being filled is the block [cur],
    and a line being filled fits. *)
Definition wrap_inv (m : Metrics) (font : QFont) (width : Z)
    (pre : list string) (st : wrap_state) : Prop :=
  exists done cur,
    lines st = map join done
    /\ current_line st = join cur
    /\ (List.concat done ++ cur)%list = pre
    /\ Forall (line_ok m font width) done
    /\ Forall (fun w => is_word w = true) cur
    /\ (cur <> [] -> adv m font (join cur) <= width).

(** ** The composite name "Family - Style" (lines 65, 534-538, 657) *)

(** [s[n:]] *)
Fixpoint drop_chars (n : nat) (s : string) : string :=
  match n, s with
  | O, _ => s
  | S n', EmptyString => EmptyString
  | S n', String _ r => drop_chars n' r
  end.

(** The two parts of [s.split(sep, 1)] when [sep] occurs in [s]: what
    stands before its first occurrence and what stands after it. *)
Fixpoint split_once (sep s : string) : option (string * string) :=
  if String.prefix sep s then Some (EmptyString, drop_chars (String.length sep) s)
  else
    match s with
    | EmptyString => None
    | String c r =>
        match split_once sep r with
        | Some (a, b) => Some (String c a, b)
        | None => None
        end
    end.

(** [try: family, style = name.split(" - ", 1)] with
    [except ValueError: family = name; style = ""]: without the separator
    the list has one element and the unpacking raises. *)
Definition split_name (name : string) : string * string :=
  match split_once " - " name with
  | Some (family, style) => (family, style)
  | None => (name, "")
  end.

(** ** FontLoader.run (lines 45-77) *)

(** The font database: [families()], each with its [styles(family)]. *)
Definition FontDb : Type := list (string * list string).

Inductive Signal : Type :=
| FontLoaded (name : string) (font : QFont)
| Progress (percent : Z)
| Finished (fonts : list (string * QFont)).

(** Lines 62-65: the entry made for one style. *)
Definition style_font (family style : string) : string * QFont :=
  (family ++ " - " ++ style, mkFont family 12 Weight.Normal style).

Record loader : Type := mkLoader {
  fonts : list (string * QFont);
  completed : Z;
  emitted : list Signal
}.

(** The body of [for family in families] (lines 54-75).  [percent] stands
    for [int((completed / total_operations) * 100)], a float computation;
    the pause of line 75 is not modelled. *)
Definition run_family (percent : Z -> Z -> Z) (total_operations : Z)
    (st : loader) (entry : string * list string) : loader :=
  let (family, styles) := entry in
  let useful_styles := _filter_useable_styles styles in
  let loaded := map (style_font family) useful_styles in
  let completed := completed st + 1 in
  mkLoader (fonts st ++ loaded) completed
           (emitted st
            ++ map (fun e => FontLoaded (fst e) (snd e)) loaded
            ++ [Progress (percent completed total_operations)]).

(** [run]: the signals emitted, in order, and [self.fonts] at the end. *)
Definition run (percent : Z -> Z -> Z) (db : FontDb)
    : list Signal * list (string * QFont) :=
  let st := fold_left (run_family percent (Z.of_nat (List.length db))) db
                      (mkLoader [] 0 []) in
  ((emitted st ++ [Finished (fonts st)])%list, fonts st).

(** ** MainWindow: the font list (lines 492-506, 655-661, 733-741) *)

(** [_filter_fonts(text)]: the new [self.filtered_fonts]. *)
Definition _filter_fonts (fonts : list (string * QFont)) (text : string)
    : list (string * QFont) :=
  let text := lower text in
  filter (fun e => contains text (lower (fst e))) fonts.

(** [for i, (name, _) in enumerate(fonts): if name == search_name: return i]
    counting from [i]. *)
Fixpoint find_name (fonts : list (string * QFont)) (search_name : string)
    (i : Z) : option Z :=
  match fonts with
  | [] => None
  | (name, _) :: rest =>
      if String.eqb name search_name then Some i
      else find_name rest search_name (i + 1)
  end.

(** [_find_font_index_in_original(family, style)]: 0 when the loop ends
    without a hit. *)
Definition _find_font_index_in_original (fonts : list (string * QFont))
    (family style : string) : Z :=
  match find_name fonts (family ++ " - " ++ style) 0 with
  | Some i => i
  | None => 0
  end.

(** [range(a, b)] *)
Definition range (a b : Z) : list Z :=
  map (fun k => a + Z.of_nat k) (seq 0 (Z.to_nat (b - a))).

(** [_update_selected_fonts]: [item i] is [font_list.item(i)], [None] for
    no item and [Some b] for an item with [isSelected() = b]. *)
Definition _update_selected_fonts (filtered_fonts : list (string * QFont))
    (item : Z -> option bool) : list (string * QFont) :=
  fold_left
    (fun selected_fonts index =>
       match item index with
       | Some true =>
           if index <? Z.of_nat (List.length filtered_fonts)
           then match py_index filtered_fonts index with
                | Some e => (selected_fonts ++ [e])%list
                | None => selected_fonts
                end
           else selected_fonts
       | _ => selected_fonts
       end)
    (range 0 (Z.of_nat (List.length filtered_fonts))) [].

(** ** MainWindow: the previews (lines 558-653) *)

(** [FontPreviewWidget()] as [__init__] leaves it; the layout gives the
    widget its size. *)
Definition FontPreviewWidget (width height : Z) : Widget :=
  mkWidget "" "" "字体预览样本 ABC abc 123" 24 (mkColor 0 0 0) Weight.Normal None
           width height.

(** A preview in the layout: the widget, and the window colour given to
    its palette if any (line 650). *)
Record Preview : Type := mkPreview {
  widget : Widget;
  window_color : option QColor
}.

(** The controls read by the preview builders: [size_slider.value()],
    [current_color], [weight_slider.value()], and the size the layout
    gives to a preview. *)
Record Controls : Type := mkControls {
  size_value : Z;
  current_color : QColor;
  weight_value : Z;
  preview_width : Z;
  preview_height : Z
}.

(** Lines 574-580, 605-611 and 639-645: a new widget, [set_font_info],
    [set_font_properties]; [None] when [_slider_value_to_weight] raises. *)
Definition new_preview (c : Controls) (family style text : string)
    : option Widget :=
  match _slider_value_to_weight (weight_value c) with
  | Some weight =>
      Some (set_font_properties
              (set_font_info
                 (FontPreviewWidget (preview_width c) (preview_height c))
                 family style text)
              (size_value c) (current_color c) weight)
  | None => None
  end.

(** The loop of lines 628-653 over the indices [indices]. *)
Fixpoint multi_loop (c : Controls) (fonts : list (string * QFont))
    (text : string) (current_index : Z) (indices : list Z)
    (layout : list Preview) : option (list Preview) :=
  match indices with
  | [] => Some layout
  | i :: rest =>
      if i >=? Z.of_nat (List.length fonts) then Some layout
      else
        match py_index fonts i with
        | None => None
        | Some (fname, _) =>
            let (f_family, f_style) := split_name fname in
            match new_preview c f_family f_style text with
            | None => None
            | Some preview_widget =>
                multi_loop c fonts text current_index rest
                  (layout
                   ++ [mkPreview preview_widget
                         (if i =? current_index
                          then Some (mkColor 173 216 230) else None)])
            end
        end
  end.

(** [_update_multi_preview(family, style, text, font)]: the previews in
    the layout afterwards (the old ones are removed first); [font] is not
    used. *)
Definition _update_multi_preview (c : Controls)
    (fonts : list (string * QFont)) (family style text : string)
    : option (list Preview) :=
  let current_index := _find_font_index_in_original fonts family style in
  let start_index := Z.max 0 (current_index - 5) in
  let end_index :=
    Z.min (Z.of_nat (List.length fonts)) (current_index + 6) in
  multi_loop c fonts text current_index (range start_index end_index) [].

(** The loop of lines 567-582. *)
Fixpoint selected_loop (c : Controls) (text : string)
    (entries : list (string * QFont)) (layout : list Preview)
    : option (list Preview) :=
  match entries with
  | [] => Some layout
  | (name, _) :: rest =>
      let (family, style) := split_name name in
      match new_preview c family style text with
      | None => None
      | Some preview_widget =>
          selected_loop c text rest
                        (layout ++ [mkPreview preview_widget None])
      end
  end.

(** What the information panel shows (lines 585-594); the constructors
    stand for the texts given to [setText]. *)
Inductive InfoText : Type :=
| SelectedCount (n : Z)
| CurrentFont (family style : string)
| NoStyleSelected.

(** [_update_selected_fonts_preview(text)]: the previews, and the texts of
    [font_family_label] and [font_style_label]. *)
Definition _update_selected_fonts_preview (c : Controls)
    (selected_fonts : list (string * QFont)) (text : string)
    : option (list Preview * InfoText * InfoText) :=
  match selected_loop c text (firstn 20 selected_fonts) [] with
  | None => None
  | Some layout =>
      Some (layout,
            SelectedCount (Z.of_nat (List.length selected_fonts)),
            match selected_fonts with
            | (name, _) :: _ =>
                let (family, style) := split_name name in
                CurrentFont family style
            | [] => NoStyleSelected
            end)
  end.

(** ** Further notions used in the statements *)

(** A text of 7-bit ASCII characters only; on such texts [lower] and
    [isspace] are exactly [str.lower] and [str.isspace]. *)
Fixpoint is_ascii (s : string) : bool :=
  match s with
  | EmptyString => true
  | String c r => (nat_of_ascii c <? 128)%nat && is_ascii r
  end.

(** [l1] is [l2] with some elements left out. *)
Inductive subseq {A : Type} : list A -> list A -> Prop :=
| subseq_nil : subseq [] []
| subseq_skip : forall x l1 l2, subseq l1 l2 -> subseq l1 (x :: l2)
| subseq_take : forall x l1 l2, subseq l1 l2 -> subseq (x :: l1) (x :: l2).

(** The baselines [y], [y + h], ... of [n] lines. *)
Definition baselines (y h : Z) (n : nat) : list Z :=
  map (fun i => y + Z.of_nat i * h) (seq 0 n).

(** The weight that a text of [weight_names] names; the table has no
    entry for [Weight.Black]. *)
Definition named_weight (label : string) : option Weight.t :=
  if String.eqb label "Thin" then Some Weight.Thin
  else if String.eqb label "Extra Light" then Some Weight.ExtraLight
  else if String.eqb label "Light" then Some Weight.Light
  else if String.eqb label "Normal" then Some Weight.Normal
  else if String.eqb label "Medium" then Some Weight.Medium
  else if String.eqb label "Semi Bold" then Some Weight.DemiBold
  else if String.eqb label "Bold" then Some Weight.Bold
  else if String.eqb label "Extra Bold" then Some Weight.ExtraBold
  else None.

(** The label names the weight that is applied, or the one just below. *)
Definition label_lags (value : Z) : bool :=
  match _slider_value_to_weight value,
        named_weight (_update_font_weight value) with
  | Some applied, Some named =>
      (Weight.rank named <=? Weight.rank applied)
      && (Weight.rank applied <=? Weight.rank named + 1)
  | _, _ => false
  end.

(** The entries announced by [font_loaded] among signals, and the number
    of [progress] signals. *)
Definition loaded_of (signals : list Signal) : list (string * QFont) :=
  flat_map (fun sg => match sg with
                      | FontLoaded name font => [(name, font)]
                      | _ => []
                      end) signals.

Definition progress_count (signals : list Signal) : nat :=
  List.length (filter (fun sg => match sg with
                                 | Progress _ => true
                                 | _ => false
                                 end) signals).

(** The entries that [run] makes for a family. *)
Definition family_fonts (entry : string * list string)
    : list (string * QFont) :=
  map (style_font (fst entry)) (_filter_useable_styles (snd entry)).

(** No [finished] among signals. *)
Definition unfinished (signals : list Signal) : Prop :=
  Forall (fun sg => match sg with Finished _ => False | _ => True end)
         signals.

(** The preview [p] stands for entry [i] of [fonts]: its widget is the one
    built from the entry's name, and it is coloured if and only if [i] is
    the current index. *)
Definition preview_of_entry (c : Controls) (fonts : list (string * QFont))
    (text : string) (current_index : Z) (i : Z) (p : Preview) : Prop :=
  exists name font,
    py_index fonts i = Some (name, font)
    /\ new_preview c (fst (split_name name)) (snd (split_name name)) text
       = Some (widget p)
    /\ window_color p
       = if i =? current_index then Some (mkColor 173 216 230) else None.

Definition highlighted (p : Preview) : bool :=
  match window_color p with
  | Some _ => true
  | None => false
  end.

(** The entries of [l], counted from [k], whose item is selected. *)
Fixpoint select_from (item : Z -> option bool) (k : Z)
    (l : list (string * QFont)) : list (string * QFont) :=
  match l with
  | [] => []
  | e :: rest =>
      match item k with
      | Some true => e :: select_from item (k + 1) rest
      | _ => select_from item (k + 1) rest
      end
  end.

(* ===================================================================== *)
(** * Part II: properties                                                  *)
(* ===================================================================== *)

(** ** Style filtering *)

Example ex_lower : lower "Bold Italic" = "bold italic".
Proof. reflexivity. Qed.

Example ex_bucket_normal :
  bucket_of false "Normal" = Regular /\ bucket_of true "Normal" = Overflow.
Proof. split; reflexivity. Qed.

(** [scan_style] acts by the arm that [bucket_of] names. *)
Lemma scan_style_cases (st : scan) (style : string) :
  scan_style st style =
  match bucket_of (regular_found st) style with
  | Regular =>
      Scan (useful_styles st ++ [style]) true
           (bold_found st) (italic_found st) (bold_italic_found st)
  | BoldItalic =>
      if bold_italic_found st then st
      else Scan (useful_styles st ++ [style]) (regular_found st)
                (bold_found st) (italic_found st) true
  | Bold =>
      if bold_found st then st
      else Scan (useful_styles st ++ [style]) (regular_found st)
                true (italic_found st) (bold_italic_found st)
  | Italic =>
      if italic_found st then st
      else Scan (useful_styles st ++ [style]) (regular_found st)
                (bold_found st) true (bold_italic_found st)
  | Overflow =>
      if (List.length (useful_styles st) <? 4)%nat
      then Scan (useful_styles st ++ [style]) (regular_found st)
                (bold_found st) (italic_found st) (bold_italic_found st)
      else st
  end.
Proof.
  unfold scan_style, bucket_of.
  destruct (contains "regular" (lower style)
            || negb (regular_found st)
               && str_in (lower style) ["normal"; "book"]); [reflexivity|].
  destruct (contains "bold" (lower style)), (contains "italic" (lower style));
    cbn [andb].
  - destruct (bold_italic_found st); reflexivity.
  - destruct (bold_found st); reflexivity.
  - destruct (italic_found st); reflexivity.
  - reflexivity.
Qed.

(** A name that is exactly "normal" or "book" holds neither "bold" nor
    "italic", so the three guarded arms do not depend on [regular_found]. *)
Lemma in_bucket_guarded (rf1 rf2 : bool) (b : bucket) (style : string) :
  guarded b = true -> in_bucket rf1 b style = in_bucket rf2 b style.
Proof.
  intros Hb. unfold in_bucket, bucket_of.
  destruct (contains "regular" (lower style)); [reflexivity|].
  destruct (str_in (lower style) ["normal"; "book"]) eqn:E.
  - unfold str_in in E. cbn [existsb] in E.
    rewrite orb_false_r in E. apply orb_true_iff in E.
    destruct E as [E|E]; apply String.eqb_eq in E; rewrite E;
      destruct rf1, rf2, b; try discriminate Hb; reflexivity.
  - rewrite !andb_false_r. reflexivity.
Qed.

Lemma filter_snoc {A : Type} (p : A -> bool) (l : list A) (x : A) :
  filter p (l ++ [x]) = (filter p l ++ if p x then [x] else [])%list.
Proof. rewrite filter_app. reflexivity. Qed.

Lemma existsb_snoc {A : Type} (p : A -> bool) (l : list A) (x : A) :
  existsb p (l ++ [x]) = existsb p l || p x.
Proof. rewrite existsb_app. cbn. rewrite orb_false_r. reflexivity. Qed.

Lemma filter_nil_of_existsb {A : Type} (p : A -> bool) (l : list A) :
  existsb p l = false -> filter p l = [].
Proof.
  induction l as [|x l IH]; cbn; [reflexivity|].
  intros H. apply orb_false_iff in H. destruct H as [Hx Hl].
  rewrite Hx. auto.
Qed.

Lemma firstn1_app_of_existsb {A : Type} (p : A -> bool) (l t : list A) :
  existsb p l = true ->
  firstn 1 (filter p l ++ t) = firstn 1 (filter p l).
Proof.
  induction l as [|x l IH]; cbn; [discriminate|].
  destruct (p x); cbn; [reflexivity|]. exact IH.
Qed.

Section GuardedArm.
Variable rf : bool.
Variable b : bucket.
Hypothesis b_guarded : guarded b = true.

Lemma arm_inv_step (pre : list string) (st : scan) (style : string) :
  arm_inv rf b pre st ->
  arm_inv rf b (pre ++ [style]) (scan_style st style).
Proof.
  intros [Hu Hf]. unfold arm_inv.
  rewrite filter_snoc, existsb_snoc.
  assert (Hp : in_bucket rf b style
               = bucket_eqb (bucket_of (regular_found st) style) b)
    by (apply in_bucket_guarded; exact b_guarded).
  rewrite scan_style_cases.
  destruct (existsb (in_bucket rf b) pre) eqn:Hex.
  - rewrite (firstn1_app_of_existsb _ _ _ Hex).
    destruct (bucket_of (regular_found st) style);
      destruct b; try discriminate b_guarded;
      cbn [bucket_eqb found_flag] in Hp, Hf |- *;
      rewrite ?Hf;
      repeat match goal with
             | |- context [if ?x then _ else _] => destruct x
             end;
      cbn [useful_styles regular_found bold_found italic_found
           bold_italic_found];
      rewrite ?filter_snoc, ?Hp, ?app_nil_r; auto.
  - rewrite (filter_nil_of_existsb _ _ Hex) in Hu |- *.
    destruct (bucket_of (regular_found st) style);
      destruct b; try discriminate b_guarded;
      cbn [bucket_eqb found_flag] in Hp, Hf |- *;
      rewrite ?Hf, Hp;
      repeat match goal with
             | |- context [if ?x then _ else _] => destruct x
             end;
      cbn [useful_styles regular_found bold_found italic_found
           bold_italic_found];
      rewrite ?filter_snoc, ?Hp, ?Hu, ?app_nil_r; auto.
Qed.

Lemma arm_inv_fold (styles pre : list string) (st : scan) :
  arm_inv rf b pre st ->
  arm_inv rf b (pre ++ styles) (fold_left scan_style styles st).
Proof.
  revert pre st.
  induction styles as [|style styles IH]; intros pre st H; cbn.
  - rewrite app_nil_r. exact H.
  - replace (pre ++ style :: styles)%list
      with ((pre ++ [style]) ++ styles)%list
      by (rewrite <- app_assoc; reflexivity).
    apply IH, arm_inv_step, H.
Qed.

Lemma arm_inv_scan (styles : list string) :
  arm_inv rf b styles (scan_styles styles).
Proof.
  apply (arm_inv_fold styles [] scan_init).
  split; [reflexivity|]. destruct b; reflexivity.
Qed.
End GuardedArm.

Lemma filter_firstn_prefix {A : Type} (p : A -> bool) (n : nat) (l : list A) :
  exists t, filter p l = (filter p (firstn n l) ++ t)%list.
Proof.
  exists (filter p (skipn n l)).
  rewrite <- filter_app, firstn_skipn. reflexivity.
Qed.

(** The loop never lets [useful_styles] shrink, and an overflow name is
    taken exactly while fewer than 4 names are held. *)
Lemma overflow_accepts (st : scan) (style : string) :
  bucket_of (regular_found st) style = Overflow ->
  useful_styles (scan_style st style) =
  if (List.length (useful_styles st) <? 4)%nat
  then (useful_styles st ++ [style])%list else useful_styles st.
Proof.
  intros H. rewrite scan_style_cases, H.
  destruct (_ <? _)%nat; reflexivity.
Qed.

(** C2 (amended).  On the input ["Regular"; "Bold"; "Italic"; "Bold Italic";
    "Black"] the filter returns ["Regular"; "Bold"; "Italic"; "Bold Italic"]:
    every accepted name is appended in the order of the scan, and "Black"
    finds four names already held. *)
Theorem filter_five_styles :
  _filter_useable_styles ["Regular"; "Bold"; "Italic"; "Bold Italic"; "Black"]
  = ["Regular"; "Bold"; "Italic"; "Bold Italic"].
Proof. reflexivity. Qed.

(** C2 as written fails: the result is not in the order Regular,
    Bold Italic, Bold, Italic. *)
Lemma filter_five_styles_not_by_priority :
  _filter_useable_styles ["Regular"; "Bold"; "Italic"; "Bold Italic"; "Black"]
  <> ["Regular"; "Bold Italic"; "Bold"; "Italic"].
Proof. vm_compute. discriminate. Qed.

(** C3 (amended).  For each of the arms BoldItalic, Bold and Italic: of the
    names held after the loop, those of the arm are exactly the first such
    name of the input (if any); the returned list therefore holds at most
    one name of the arm, and a name of the arm that is returned is the
    first one of the input. *)
Theorem guarded_arm_single_winner (rf : bool) (b : bucket)
    (styles : list string) :
  guarded b = true ->
  filter (in_bucket rf b) (useful_styles (scan_styles styles))
    = firstn 1 (filter (in_bucket rf b) styles)
  /\ (List.length (filter (in_bucket rf b) (_filter_useable_styles styles))
      <= 1)%nat
  /\ (forall s,
        In s (filter (in_bucket rf b) (_filter_useable_styles styles)) ->
        firstn 1 (filter (in_bucket rf b) styles) = [s]).
Proof.
  intros Hb.
  destruct (arm_inv_scan rf b Hb styles) as [Hu _].
  split; [exact Hu|].
  unfold _filter_useable_styles.
  destruct (filter_firstn_prefix (in_bucket rf b) 4
              (useful_styles (scan_styles styles))) as [t Ht].
  rewrite Hu in Ht.
  set (winners := filter (in_bucket rf b)
                    (firstn 4 (useful_styles (scan_styles styles)))) in *.
  assert (Hlen : (List.length (winners ++ t) <= 1)%nat).
  { rewrite <- Ht. rewrite length_firstn. lia. }
  rewrite length_app in Hlen.
  split; [lia|].
  intros s Hs.
  destruct winners as [|x [|y ws]]; cbn in Hs, Hlen.
  - contradiction.
  - destruct Hs as [->|[]]. destruct t; [|cbn in Hlen; lia].
    exact Ht.
  - lia.
Qed.

Lemma guarded_arm_single_winner_witness :
  guarded Bold = true
  /\ filter (in_bucket true Bold)
       (_filter_useable_styles ["Bold"; "Regular"; "Semi Bold"; "Extra Bold"])
     = ["Bold"].
Proof.
  split; [reflexivity|].
  pose proof (guarded_arm_single_winner true Bold
                ["Bold"; "Regular"; "Semi Bold"; "Extra Bold"] eq_refl)
    as [_ [_ H]].
  symmetry. exact (H "Bold" (or_introl eq_refl)).
Defined.

(** C3 as written fails for the Regular arm: every name that contains
    "regular" is appended, whether or not one was taken before. *)
Lemma regular_arm_two_winners :
  _filter_useable_styles ["Regular"; "Condensed Regular"]
    = ["Regular"; "Condensed Regular"]
  /\ in_bucket false Regular "Regular" = true
  /\ in_bucket true Regular "Condensed Regular" = true
  /\ ~ (forall (rf : bool) (b : bucket) (styles : list string),
          b <> Overflow ->
          (List.length
             (filter (in_bucket rf b) (_filter_useable_styles styles))
           <= 1)%nat).
Proof.
  repeat split; try reflexivity.
  intros H.
  specialize (H true Regular ["Regular"; "Condensed Regular"]).
  cbn in H. assert (Regular <> Overflow) as Hne by discriminate.
  specialize (H Hne). vm_compute in H. lia.
Qed.

(** C7.  The filter returns at most 4 names, and a name that reaches the
    last arm of the chain is appended exactly when fewer than 4 names are
    held at that moment. *)
Theorem filter_at_most_four (styles : list string) :
  (List.length (_filter_useable_styles styles) <= 4)%nat
  /\ (forall st style,
        bucket_of (regular_found st) style = Overflow ->
        useful_styles (scan_style st style) =
        if (List.length (useful_styles st) <? 4)%nat
        then (useful_styles st ++ [style])%list else useful_styles st).
Proof.
  split.
  - unfold _filter_useable_styles. rewrite length_firstn. lia.
  - intros st style. apply overflow_accepts.
Qed.

Lemma filter_at_most_four_witness :
  bucket_of false "Black" = Overflow
  /\ useful_styles (scan_style (scan_styles ["Light"; "Thin"]) "Black")
     = ["Light"; "Thin"; "Black"].
Proof.
  split; [reflexivity|].
  destruct (filter_at_most_four []) as [_ H].
  rewrite (H (scan_styles ["Light"; "Thin"]) "Black" eq_refl).
  reflexivity.
Defined.

Example ex_filter_empty : _filter_useable_styles [] = [].
Proof. reflexivity. Qed.

(** ** The weight slider *)

Lemma slider_index (value : Z) :
  0 <= value ->
  exists w, _slider_value_to_weight value = Some w
            /\ Weight.rank w = Z.min (value * 100 / 1111) 8.
Proof.
  intros Hv. unfold _slider_value_to_weight, int_div_11_11.
  rewrite Z.quot_div_nonneg by lia.
  change (Z.of_nat (List.length weights) - 1) with 8.
  set (i := Z.min (value * 100 / 1111) 8).
  assert (Hi : 0 <= i <= 8).
  { subst i. pose proof (Z.div_pos (value * 100) 1111). lia. }
  assert (Hc : i = 0 \/ i = 1 \/ i = 2 \/ i = 3 \/ i = 4 \/ i = 5 \/ i = 6
               \/ i = 7 \/ i = 8) by lia.
  clearbody i.
  repeat (destruct Hc as [->|Hc]); [..|subst i];
    (eexists; split; [reflexivity|reflexivity]).
Qed.

(** The lightest weight at 0 and the heaviest at 99. *)
Lemma slider_ends :
  _slider_value_to_weight 0 = Some Weight.Thin
  /\ _slider_value_to_weight 99 = Some Weight.Black.
Proof. split; reflexivity. Qed.

(** The weight never decreases along the slider. *)
Lemma slider_monotone (v1 v2 : Z) :
  0 <= v1 <= v2 ->
  exists w1 w2,
    _slider_value_to_weight v1 = Some w1
    /\ _slider_value_to_weight v2 = Some w2
    /\ Weight.rank w1 <= Weight.rank w2.
Proof.
  intros H.
  destruct (slider_index v1) as [w1 [E1 R1]]; [lia|].
  destruct (slider_index v2) as [w2 [E2 R2]]; [lia|].
  exists w1, w2. repeat split; try assumption.
  rewrite R1, R2.
  assert (v1 * 100 / 1111 <= v2 * 100 / 1111)
    by (apply Z.div_le_mono; lia).
  lia.
Qed.

(** C1.  The slider value 50, which [_setup_ui] sets and labels "Normal",
    is mapped to [Weight.Medium], not to [Weight.Normal]: 50 / 11.11 is
    4.5, and [weights[4]] is Medium.  [_update_font_weight] names it
    "Medium" as well. *)
Theorem slider_50_is_medium :
  _slider_value_to_weight initial_slider_value = Some Weight.Medium
  /\ _slider_value_to_weight initial_slider_value <> Some Weight.Normal
  /\ _update_font_weight initial_slider_value = "Medium"
  /\ initial_weight_label = "Normal".
Proof. repeat split; try reflexivity. discriminate. Qed.

(** ** Strings *)

Example ex_replace_split :
  split (replace_newline ("ab  c" ++ NL ++ "d")) = ["ab"; "c"; "d"].
Proof. reflexivity. Qed.

Example ex_split_lines : split_lines ("ab" ++ NL ++ NL ++ "c") = ["ab"; ""; "c"].
Proof. reflexivity. Qed.

Example ex_strip : strip "  a b  " = "a b".
Proof. reflexivity. Qed.

Example ex_drop_last : drop_last "Arial" = "Aria".
Proof. reflexivity. Qed.

Lemma append_nil_r (s : string) : s ++ "" = s.
Proof. induction s as [|c s IH]; cbn; [reflexivity|]. now rewrite IH. Qed.

Lemma append_assoc (a b c : string) : (a ++ b) ++ c = a ++ (b ++ c).
Proof. induction a as [|x a IH]; cbn; [reflexivity|]. now rewrite IH. Qed.

Lemma truthy_append_l (a b : string) :
  truthy a = true -> truthy (a ++ b) = true.
Proof. destruct a; [discriminate|reflexivity]. Qed.

Lemma truthy_append_r (a b : string) :
  truthy b = true -> truthy (a ++ b) = true.
Proof. destruct a; [trivial|reflexivity]. Qed.

Lemma nospace_append (a b : string) :
  nospace (a ++ b) = nospace a && nospace b.
Proof.
  induction a as [|x a IH]; cbn; [reflexivity|].
  rewrite IH. now rewrite andb_assoc.
Qed.

Lemma split_from_words (s cur : string) :
  nospace cur = true ->
  Forall (fun w => is_word w = true) (split_from cur s).
Proof.
  revert cur. induction s as [|c s IH]; intros cur Hc; cbn.
  - destruct (truthy cur) eqn:Ht; constructor; [|constructor].
    unfold is_word. now rewrite Ht, Hc.
  - destruct (isspace c) eqn:Hs.
    + destruct (truthy cur) eqn:Ht.
      * constructor; [unfold is_word; now rewrite Ht, Hc|].
        apply IH. reflexivity.
      * apply IH. reflexivity.
    + apply IH. rewrite nospace_append, Hc. cbn. now rewrite Hs.
Qed.

(** [split] yields words. *)
Lemma split_words (s : string) : Forall (fun w => is_word w = true) (split s).
Proof. apply split_from_words. reflexivity. Qed.

(** A word is never the token ["\n"], so the arm of line 177 is not taken
    for the words of [split]. *)
Lemma word_not_NL (w : string) : is_word w = true -> String.eqb w NL = false.
Proof.
  intros H. apply String.eqb_neq. intros ->. discriminate H.
Qed.

Lemma lstrip_word_app (w r : string) :
  is_word w = true -> lstrip (w ++ r) = w ++ r.
Proof.
  destruct w as [|c w]; [discriminate|]. unfold is_word. cbn.
  intros H. apply andb_true_iff in H. destruct H as [H _].
  apply negb_true_iff in H. now rewrite H.
Qed.

Lemma rstrip_app (a b : string) :
  truthy (rstrip b) = true -> rstrip (a ++ b) = a ++ rstrip b.
Proof.
  intros Hb. induction a as [|c a IH]; cbn; [reflexivity|].
  rewrite IH. rewrite (truthy_append_r a (rstrip b) Hb). reflexivity.
Qed.

Lemma rstrip_word (w : string) : nospace w = true -> rstrip w = w.
Proof.
  induction w as [|c w IH]; cbn; [reflexivity|].
  intros H. apply andb_true_iff in H. destruct H as [Hc Hw].
  apply negb_true_iff in Hc. rewrite (IH Hw), Hc, andb_false_r.
  reflexivity.
Qed.

Lemma join_cons (w : string) (block : list string) :
  block <> [] -> join (w :: block) = w ++ " " ++ join block.
Proof. destruct block; [congruence|reflexivity]. Qed.

Lemma join_snoc (block : list string) (w : string) :
  block <> [] -> join (block ++ [w]) = join block ++ " " ++ w.
Proof.
  induction block as [|x block IH]; [congruence|]. intros _.
  destruct block as [|x' block].
  - reflexivity.
  - change ((x :: x' :: block) ++ [w])%list
      with (x :: ((x' :: block) ++ [w]))%list.
    rewrite join_cons by (cbn; discriminate).
    rewrite IH by discriminate.
    rewrite (join_cons x) by discriminate.
    now rewrite !append_assoc.
Qed.

Lemma join_truthy (block : list string) :
  Forall (fun w => is_word w = true) block -> block <> [] ->
  truthy (join block) = true.
Proof.
  intros Hall Hne. destruct block as [|w rest]; [congruence|].
  inversion Hall as [|? ? Hw _]; subst.
  apply andb_true_iff in Hw. destruct Hw as [Hw _].
  destruct rest; [exact Hw|].
  rewrite join_cons by discriminate. now apply truthy_append_l.
Qed.

Lemma rstrip_join (block : list string) :
  Forall (fun w => is_word w = true) block ->
  rstrip (join block) = join block.
Proof.
  induction block as [|w rest IH]; [reflexivity|].
  intros Hall. inversion Hall as [|? ? Hw Hrest]; subst.
  apply andb_true_iff in Hw. destruct Hw as [Ht Hn].
  destruct rest as [|w' rest].
  - now apply rstrip_word.
  - rewrite join_cons by discriminate.
    assert (Hr : rstrip (" " ++ join (w' :: rest))
                 = " " ++ join (w' :: rest)).
    { cbn [append rstrip]. rewrite (IH Hrest).
      rewrite (join_truthy _ Hrest) by discriminate. reflexivity. }
    rewrite rstrip_app; rewrite Hr; reflexivity.
Qed.

(** The final [strip] of line 198 changes nothing on a line of words. *)
Lemma strip_join (block : list string) :
  Forall (fun w => is_word w = true) block ->
  strip (join block) = join block.
Proof.
  intros Hall. unfold strip. rewrite rstrip_join by exact Hall.
  destruct block as [|w rest]; [reflexivity|].
  inversion Hall as [|? ? Hw _]; subst.
  destruct rest; [rewrite <- (append_nil_r (join [w])) |
                  rewrite join_cons by discriminate];
    now apply lstrip_word_app.
Qed.

(** ** Line breaking *)

Section Wrap.
Variable m : Metrics.
Variable font : QFont.
Variable width : Z.

Lemma wrap_inv_init : wrap_inv m font width [] (mkWrap [] "").
Proof.
  exists [], []. cbn. repeat split; try constructor. congruence.
Qed.

(** The line tried at line 184 is the block with the word added. *)
Lemma test_line_join (cur : list string) (word : string) :
  Forall (fun w => is_word w = true) cur ->
  join cur ++ (if truthy (join cur) then " " else "") ++ word
  = join (cur ++ [word]).
Proof.
  intros Hcur. destruct cur as [|w cur]; [reflexivity|].
  rewrite (join_truthy _ Hcur) by discriminate.
  now rewrite join_snoc by discriminate.
Qed.

Lemma wrap_word_inv (pre : list string) (st : wrap_state) (word : string) :
  wrap_inv m font width pre st ->
  is_word word = true ->
  exists st',
    wrap_word (engine_of m) font width st word = Ok st'
    /\ wrap_inv m font width (pre ++ [word]) st'.
Proof.
  intros (done & cur & Hl & Hc & Hpre & Hdone & Hcur & Hfit) Hw.
  unfold wrap_word. rewrite (word_not_NL _ Hw), Hc.
  rewrite (test_line_join cur word Hcur). cbn [engine_of horizontalAdvance bind].
  assert (Hnew : Forall (fun w => is_word w = true) (cur ++ [word]))
    by (apply Forall_app; split; [exact Hcur | repeat constructor; exact Hw]).
  destruct (adv m font (join (cur ++ [word])) >? width) eqn:Ha.
  - (* the word does not go on the line *)
    assert (Hflush : exists done1,
               (if truthy (join cur) then (lines st ++ [join cur])%list
                else lines st) = map join done1
               /\ List.concat done1 = pre
               /\ Forall (line_ok m font width) done1).
    { destruct cur as [|w cur].
      - exists done. cbn. rewrite app_nil_r in Hpre. auto.
      - rewrite (join_truthy _ Hcur) by discriminate.
        exists (done ++ [w :: cur])%list. rewrite map_app, Hl.
        split; [reflexivity|]. split.
        + rewrite concat_app. cbn. rewrite app_nil_r. exact Hpre.
        + apply Forall_app. split; [exact Hdone|].
          constructor; [|constructor]. split; [discriminate|].
          left. apply Hfit. discriminate. }
    destruct Hflush as (done1 & Hl1 & Hpre1 & Hdone1). rewrite Hl1.
    destruct (adv m font word >? width) eqn:Hword.
    + eexists. split; [reflexivity|].
      exists (done1 ++ [[word]])%list, []. cbn.
      rewrite map_app. repeat split; try constructor; try congruence.
      * rewrite app_nil_r, concat_app, Hpre1. cbn. reflexivity.
      * apply Forall_app. split; [exact Hdone1|].
        constructor; [|constructor]. split; [discriminate|].
        right. exists word. split; [reflexivity|]. lia.
    + eexists. split; [reflexivity|].
      exists done1, [word]. cbn.
      repeat split; try assumption; try (repeat constructor; assumption).
      * now rewrite Hpre1.
      * intros _. change (join [word]) with word. lia.
  - (* the word goes on the line *)
    eexists. split; [reflexivity|].
    exists done, (cur ++ [word])%list. cbn.
    repeat split; try assumption.
    + now rewrite app_assoc, Hpre.
    + intros _. lia.
Qed.

Lemma wrap_loop_inv (words pre : list string) (st : wrap_state) :
  Forall (fun w => is_word w = true) words ->
  wrap_inv m font width pre st ->
  exists st',
    for_each (wrap_word (engine_of m) font width) words st = Ok st'
    /\ wrap_inv m font width (pre ++ words) st'.
Proof.
  revert pre st.
  induction words as [|word words IH]; intros pre st Hall Hinv.
  - exists st. rewrite app_nil_r. split; [reflexivity|exact Hinv].
  - inversion Hall as [|? ? Hw Hrest]; subst.
    destruct (wrap_word_inv _ _ word Hinv Hw) as (st1 & E1 & Hinv1).
    destruct (IH _ _ Hrest Hinv1) as (st' & E' & Hinv').
    exists st'. cbn [for_each]. rewrite E1. cbn [bind].
    split; [exact E'|].
    now rewrite <- app_assoc in Hinv'.
Qed.

(** The lines of the greedy pass are blocks of consecutive words, every
    word in exactly one block, and every block is right. *)
Lemma wrap_words_blocks (words : list string) :
  Forall (fun w => is_word w = true) words ->
  exists blocks,
    wrap_words (engine_of m) font width words = Ok (map join blocks)
    /\ List.concat blocks = words
    /\ Forall (line_ok m font width) blocks.
Proof.
  intros Hall.
  destruct (wrap_loop_inv words [] _ Hall wrap_inv_init)
    as (st & E & done & cur & Hl & Hc & Hpre & Hdone & Hcur & Hfit).
  unfold wrap_words. rewrite E. cbn [bind]. unfold flush.
  rewrite Hc, (strip_join _ Hcur). cbn [app] in Hpre.
  destruct cur as [|w cur].
  - exists done. cbn. rewrite app_nil_r in Hpre. rewrite Hl. auto.
  - rewrite (join_truthy _ Hcur) by discriminate.
    exists (done ++ [w :: cur])%list. rewrite map_app, Hl.
    split; [reflexivity|]. split.
    + rewrite concat_app. cbn. now rewrite app_nil_r.
    + apply Forall_app. split; [exact Hdone|].
      constructor; [|constructor]. split; [discriminate|].
      left. apply Hfit. discriminate.
Qed.
End Wrap.

(** C8.  When the text is wider than the box, the lines of the greedy pass
    are blocks of consecutive words of the text, in order and with no word
    left out or cut; each line fits the width, except a line made of one
    single word that is too wide by itself. *)
Theorem wrapped_lines_fit (m : Metrics) (font : QFont) (text : string)
    (width : Z) :
  width < adv m font text ->
  exists blocks,
    preview_lines (engine_of m) font text width = Ok (map join blocks)
    /\ List.concat blocks = split (replace_newline text)
    /\ Forall (line_ok m font width) blocks
    /\ (forall line, In line (map join blocks) ->
          adv m font line <= width
          \/ (In line (split (replace_newline text))
              /\ width < adv m font line)).
Proof.
  intros Hwide. unfold preview_lines. cbn [engine_of horizontalAdvance bind].
  destruct (Z.gtb_spec (adv m font text) width) as [_|Hle]; [|lia].
  destruct (wrap_words_blocks m font width (split (replace_newline text))
              (split_words _)) as (blocks & E & Hcat & Hok).
  exists blocks. repeat split; try assumption.
  intros line Hin. apply in_map_iff in Hin. destruct Hin as (b & <- & Hb).
  rewrite Forall_forall in Hok.
  destruct (Hok b Hb) as [_ [Hfit|(word & -> & Hover)]]; [left; exact Hfit|].
  right. split; [|exact Hover].
  rewrite <- Hcat. apply in_concat. exists [word]. split; [exact Hb|].
  now left.
Qed.

Lemma wrapped_lines_fit_witness :
  50 < adv fixed_pitch (mkFont "Arial" 12 Weight.Normal "Regular")
           "a very long sentence that exceeds the box"
  /\ exists blocks,
       preview_lines (engine_of fixed_pitch)
         (mkFont "Arial" 12 Weight.Normal "Regular")
         "a very long sentence that exceeds the box" 50
       = Ok (map join blocks)
       /\ List.concat blocks
          = ["a"; "very"; "long"; "sentence"; "that"; "exceeds"; "the"; "box"].
Proof.
  split; [reflexivity|].
  destruct (wrapped_lines_fit fixed_pitch
              (mkFont "Arial" 12 Weight.Normal "Regular")
              "a very long sentence that exceeds the box" 50 eq_refl)
    as (blocks & E & Hcat & _).
  exists blocks. split; [exact E|exact Hcat].
Defined.

Example ex_wrap :
  preview_lines (engine_of fixed_pitch) (mkFont "Arial" 12 Weight.Normal "")
                "a verylongword b c d e f g" 50
  = Ok ["a"; "verylongword"; "b c d"; "e f g"].
Proof. reflexivity. Qed.

(** ** The font name beside a line *)

Lemma drop_last_length (s : string) :
  String.length (drop_last s) = Nat.pred (String.length s).
Proof.
  induction s as [|c s IH]; [reflexivity|].
  destruct s as [|c' s]; [reflexivity|].
  change (drop_last (String c (String c' s)))
    with (String c (drop_last (String c' s))).
  cbn [String.length]. rewrite IH. reflexivity.
Qed.

Lemma shorten_round (env : QtEngine) (small : QFont) (available : Z)
    (fuel : nat) (s : string) :
  shorten env small available (S fuel) s
  = (a <- horizontalAdvance env small (s ++ "...") ;;
     if (a >? available) && (len s >? 3)
     then shorten env small available fuel (drop_last s)
     else Ok s).
Proof. reflexivity. Qed.

(** The shortening loop stops by itself: more fuel than the name is long
    is never used up. *)
Lemma shorten_fuel (env : QtEngine) (small : QFont) (available : Z)
    (fuel : nat) (s : string) :
  (String.length s < fuel)%nat ->
  shorten env small available (S fuel) s = shorten env small available fuel s.
Proof.
  revert s. induction fuel as [|fuel IH]; intros s Hlen; [lia|].
  rewrite (shorten_round env small available (S fuel) s).
  rewrite (shorten_round env small available fuel s).
  destruct (horizontalAdvance env small (s ++ "...")) as [a|e];
    [|reflexivity].
  cbn [bind].
  destruct ((a >? available) && (len s >? 3)) eqn:Hgo; [|reflexivity].
  apply andb_true_iff in Hgo. destruct Hgo as [_ Hlong].
  unfold len in Hlong.
  destruct (Z.gtb_spec (Z.of_nat (String.length s)) 3) as [H3|]; [|discriminate].
  rewrite (IH (drop_last s)); [reflexivity|].
  rewrite drop_last_length. lia.
Qed.

Example ex_shorten :
  shorten (engine_of fixed_pitch) (mkFont "Arial" 20 Weight.Normal "") 100
          (S (String.length "Arial - Bold")) "Arial - Bold"
  = Ok "Arial -".
Proof. reflexivity. Qed.

(** When the name would come within 20 of the end of the line, lines
    245-246 leave nothing to draw: the width left is 0. *)
Lemma draw_name_collision (env : QtEngine) (w : Widget) (font : QFont)
    (p : QPainter) (line : string) (y name_width line_width : Z) :
  horizontalAdvance env (small_font w) (font_name w) = Ok name_width ->
  horizontalAdvance env font line = Ok line_width ->
  rect_width w - name_width - 10 <= 10 + line_width + 20 ->
  Z.max 0 (rect_width w - name_width - 10 - (10 + line_width) - 20) = 0
  /\ draw_name env w font p line y = Ok (mkPainter font (p_pen p) (p_ops p)).
Proof.
  intros Hn Hl Hclose.
  assert (H0 : Z.max 0 (rect_width w - name_width - 10
                        - (10 + line_width) - 20) = 0) by lia.
  split; [exact H0|].
  unfold draw_name. rewrite Hn. cbn [bind]. rewrite Hl. cbn [bind].
  destruct (Z.gtb_spec (rect_width w - name_width - 10)
                       (10 + line_width + 20)) as [Hfar|_]; [lia|].
  rewrite H0. reflexivity.
Qed.

(** With room, line 242 draws the whole name, flush right. *)
Lemma draw_name_clear (m : Metrics) (w : Widget) (font : QFont)
    (p : QPainter) (line : string) (y : Z) :
  preview_text_end m font line + 20 < name_x m w ->
  draw_name (engine_of m) w font p line y
  = Ok (mkPainter font (p_pen p)
          (p_ops p ++ [name_op m w font (p_pen p) y])).
Proof.
  intros Hfar. unfold draw_name, name_x, preview_text_end in *.
  cbn [engine_of horizontalAdvance ascent bind].
  destruct (Z.gtb_spec (rect_width w - adv m (small_font w) (font_name w) - 10)
                       (10 + adv m font line + 20)) as [_|Hle]; [|lia].
  reflexivity.
Qed.

Lemma draw_name_ops (m : Metrics) (w : Widget) (font : QFont) (pen : QColor)
    (ops : list DrawText) (line : string) (y : Z) :
  draw_name (engine_of m) w font (mkPainter font pen ops) line y
  = Ok (mkPainter font pen
          (ops ++ if name_x m w >? preview_text_end m font line + 20
                  then [name_op m w font pen y] else [])).
Proof.
  destruct (Z.gtb_spec (name_x m w) (preview_text_end m font line + 20))
    as [Hfar|Hclose].
  - now rewrite draw_name_clear.
  - rewrite app_nil_r.
    apply (draw_name_collision (engine_of m) w font (mkPainter font pen ops)
             line y (adv m (small_font w) (font_name w)) (adv m font line));
      try reflexivity.
    exact Hclose.
Qed.

Lemma draw_lines_ops (m : Metrics) (w : Widget) (font : QFont) (pen : QColor)
    (rows : list (string * Z)) (ops : list DrawText) (y : Z) :
  draw_lines (engine_of m) w font rows (mkPainter font pen ops) y
  = Ok (mkPainter font pen
          (ops ++ flat_map (row_ops m w font pen)
                           (visible_rows m w font rows y))).
Proof.
  revert ops y. induction rows as [|[line h] rows IH]; intros ops y.
  - cbn. now rewrite app_nil_r.
  - cbn [draw_lines visible_rows]. cbn [engine_of ascent bind].
    destruct (y - asc m font + h >? rect_height w).
    + cbn. now rewrite app_nil_r.
    + unfold drawText. cbn [engine_of rasterize bind p_font p_pen p_ops].
      rewrite draw_name_ops. cbn [bind]. rewrite IH.
      cbn [flat_map row_ops]. rewrite <- !app_assoc. reflexivity.
Qed.

Lemma measure_heights_ok (m : Metrics) (font : QFont) (lines : list string)
    (hs : list Z) :
  for_each (fun hs _ => h <- lineSpacing (engine_of m) font ;;
                        Ok (hs ++ [h])%list) lines hs
  = Ok (hs ++ map (fun _ => lsp m font) lines)%list.
Proof.
  revert hs. induction lines as [|l lines IH]; intros hs; cbn.
  - now rewrite app_nil_r.
  - rewrite IH, <- app_assoc. reflexivity.
Qed.

(** Line breaking does not raise when measuring does not. *)
Lemma preview_lines_ok (m : Metrics) (font : QFont) (text : string)
    (width : Z) :
  exists lines, preview_lines (engine_of m) font text width = Ok lines.
Proof.
  unfold preview_lines. cbn [engine_of horizontalAdvance bind].
  destruct (adv m font text >? width).
  - destruct (wrap_words_blocks m font width (split (replace_newline text))
                (split_words _)) as (blocks & E & _).
    eauto.
  - eauto.
Qed.

(** A whole pass under metrics that do not raise. *)
Lemma render_ops (m : Metrics) (w : Widget) :
  exists lines,
    preview_lines (engine_of m) (main_font w) (text w) (rect_width w - 20)
      = Ok lines
    /\ render (engine_of m) w
       = Ok (mkPixmap (rect_width w) (rect_height w)
               (flat_map (row_ops m w (main_font w) (font_color w))
                  (visible_rows m w (main_font w)
                     (combine lines (map (fun _ => lsp m (main_font w)) lines))
                     (start_y m w (main_font w)
                        (map (fun _ => lsp m (main_font w)) lines))))).
Proof.
  destruct (preview_lines_ok m (main_font w) (text w) (rect_width w - 20))
    as [lines E].
  exists lines. split; [exact E|].
  unfold render. rewrite E. cbn [bind]. unfold measure_heights.
  rewrite (measure_heights_ok m (main_font w) lines []).
  cbn [bind app]. unfold start_y.
  destruct (sum _ >? rect_height w - 20);
    cbn [engine_of ascent bind]; rewrite draw_lines_ops; reflexivity.
Qed.

(** C10.  Whenever the right-aligned name would start within 20 of the end
    of the line ([name_x <= preview_text_end + 20]), the width computed at
    line 245 is 0, the test [available_width > 30] of line 246 fails, and
    nothing is drawn for the name: the shortening loop of lines 248-254 is
    never entered, whatever the engine would answer there. *)
Theorem collision_never_draws (env : QtEngine) (w : Widget) (font : QFont)
    (p : QPainter) (line : string) (y name_width line_width : Z) :
  horizontalAdvance env (small_font w) (font_name w) = Ok name_width ->
  horizontalAdvance env font line = Ok line_width ->
  rect_width w - name_width - 10 <= 10 + line_width + 20 ->
  Z.max 0 (rect_width w - name_width - 10 - (10 + line_width) - 20) = 0
  /\ (Z.max 0 (rect_width w - name_width - 10 - (10 + line_width) - 20)
      >? 30) = false
  /\ draw_name env w font p line y = Ok (mkPainter font (p_pen p) (p_ops p)).
Proof.
  intros Hn Hl Hclose.
  destruct (draw_name_collision env w font p line y name_width line_width
              Hn Hl Hclose) as [H0 Hd].
  rewrite H0. repeat split. exact Hd.
Qed.

Lemma collision_never_draws_witness :
  draw_name no_ellipsis_engine (sample_widget "Hello wide world" 300 100)
            (main_font (sample_widget "Hello wide world" 300 100))
            (mkPainter (main_font (sample_widget "Hello wide world" 300 100))
                       (mkColor 0 0 0) [])
            "Hello wide world" 34
  = Ok (mkPainter (main_font (sample_widget "Hello wide world" 300 100))
                  (mkColor 0 0 0) []).
Proof.
  apply (collision_never_draws no_ellipsis_engine
           (sample_widget "Hello wide world" 300 100)
           (main_font (sample_widget "Hello wide world" 300 100))
           (mkPainter (main_font (sample_widget "Hello wide world" 300 100))
                      (mkColor 0 0 0) [])
           "Hello wide world" 34 120 160);
    [reflexivity | reflexivity | vm_compute; discriminate].
Defined.



(** Outside the collision case the width left is not computed by the
    code; there the whole name is drawn at [name_x] and ends 10 short of
    the right edge. *)
Example ex_name_clear :
  draw_name (engine_of fixed_pitch) (sample_widget "Hello" 300 100)
    (main_font (sample_widget "Hello" 300 100))
    (mkPainter (main_font (sample_widget "Hello" 300 100))
               (mkColor 0 0 0) [])
    "Hello" 34
  = Ok (mkPainter (main_font (sample_widget "Hello" 300 100))
          (mkColor 0 0 0)
          [mkDraw 170 30 "Arial - Bold"
                  (small_font (sample_widget "Hello" 300 100))
                  (mkColor 0 0 0)]).
Proof. reflexivity. Qed.

(** ** A whole pass *)

(** C4 (amended).  In a pass whose measurements do not raise, the lines are
    drawn in order until the first that would pass the bottom edge, and
    every line that is drawn is followed by its own placement of the font
    name, at most one per line, decided by the end of that line and set on
    that line's baseline: the name is placed beside each drawn line, not
    beside line 0 only. *)
Theorem name_beside_every_drawn_line (m : Metrics) (w : Widget) :
  (exists lines,
     preview_lines (engine_of m) (main_font w) (text w) (rect_width w - 20)
       = Ok lines
     /\ render (engine_of m) w
        = Ok (mkPixmap (rect_width w) (rect_height w)
                (flat_map (row_ops m w (main_font w) (font_color w))
                   (visible_rows m w (main_font w)
                      (combine lines
                               (map (fun _ => lsp m (main_font w)) lines))
                      (start_y m w (main_font w)
                         (map (fun _ => lsp m (main_font w)) lines))))))
  /\ (forall font pen line y,
        row_ops m w font pen (line, y) = [mkDraw 10 y line font pen]
        \/ row_ops m w font pen (line, y)
           = [mkDraw 10 y line font pen; name_op m w font pen y]).
Proof.
  split; [apply render_ops|].
  intros font pen line y. unfold row_ops.
  destruct (name_x m w >? preview_text_end m font line + 20); auto.
Qed.

(** C4 as written fails: a text of two short lines gets the name twice,
    the second time on the baseline of the second line. *)
Lemma name_beside_second_line :
  exists pm,
    render (engine_of fixed_pitch) (sample_widget ("Hi" ++ NL ++ "yo") 600 100)
      = Ok pm
    /\ map (fun op => (dt_text op, dt_y op)) (pm_ops pm)
       = [("Hi", 34); ("Arial - Bold", 30); ("yo", 62); ("Arial - Bold", 58)]
    /\ List.length
         (filter (is_name_of (sample_widget ("Hi" ++ NL ++ "yo") 600 100))
                 (pm_ops pm)) = 2%nat.
Proof. eexists. split; [reflexivity|]. split; reflexivity. Qed.

(** A pass raises only if the engine does. *)
Lemma render_total (m : Metrics) (w : Widget) :
  exists pm, render (engine_of m) w = Ok pm.
Proof. destruct (render_ops m w) as (lines & _ & E). eauto. Qed.

(** ** The cache *)

Lemma paintEvent_cached (env : QtEngine) (w : Widget) (pm : QPixmap) :
  cache_pixmap w = Some pm -> paintEvent env w = (w, [DrawPixmap 0 0 pm]).
Proof. intros H. unfold paintEvent. rewrite H. cbn. rewrite H. reflexivity. Qed.

Lemma paintEvent_empty (env : QtEngine) (w : Widget) :
  cache_pixmap w = None ->
  paintEvent env w =
  match render env w with
  | Ok pm => (set_cache w (Some pm), [UpdateCache; DrawPixmap 0 0 pm])
  | Raise e => (set_cache w None, [UpdateCache; Print e])
  end.
Proof.
  intros H. unfold paintEvent, _update_cache. rewrite H.
  destruct (render env w); reflexivity.
Qed.

Lemma paintEvent_empty_renders (env : QtEngine) (w : Widget) :
  cache_pixmap w = None -> renders (snd (paintEvent env w)) = 1%nat.
Proof.
  intros H. rewrite (paintEvent_empty env w H).
  destruct (render env w); reflexivity.
Qed.

(** C5 (amended).  From an empty cache, two paint passes in a row with no
    setter called in between enter [_update_cache] exactly once if the
    render succeeds, and the second pass draws the stored pixmap and leaves
    the widget as it is.  Every call of [set_font_info] or
    [set_font_properties] (family, style, text, size, colour, weight)
    empties the cache, so the next pass renders again.  A new size does
    not: the stored pixmap is drawn again. *)
Theorem paint_passes_and_cache (env : QtEngine) (w : Widget) :
  (forall pm,
     cache_pixmap w = None -> render env w = Ok pm ->
     renders (snd (paintEvent env w)
              ++ snd (paintEvent env (fst (paintEvent env w)))) = 1%nat
     /\ cache_pixmap (fst (paintEvent env w)) = Some pm
     /\ paintEvent env (fst (paintEvent env w))
        = (fst (paintEvent env w), [DrawPixmap 0 0 pm]))
  /\ (forall family style text,
        renders (snd (paintEvent env (set_font_info w family style text)))
        = 1%nat)
  /\ (forall size color weight,
        renders (snd (paintEvent env
                        (set_font_properties w size color weight)))
        = 1%nat)
  /\ (forall pm width height,
        cache_pixmap w = Some pm ->
        paintEvent env (resize w width height)
        = (resize w width height, [DrawPixmap 0 0 pm])).
Proof.
  split; [|split; [|split]].
  - intros pm Hc Hr. rewrite (paintEvent_empty env w Hc), Hr.
    cbn [fst snd].
    rewrite (paintEvent_cached env (set_cache w (Some pm)) pm eq_refl).
    repeat split.
  - intros. now apply paintEvent_empty_renders.
  - intros. now apply paintEvent_empty_renders.
  - intros pm width height Hc. now apply paintEvent_cached.
Qed.

Lemma paint_passes_and_cache_witness :
  renders (snd (paintEvent (engine_of fixed_pitch)
                           (sample_widget "Hello" 600 100))
           ++ snd (paintEvent (engine_of fixed_pitch)
                     (fst (paintEvent (engine_of fixed_pitch)
                                      (sample_widget "Hello" 600 100)))))
  = 1%nat
  /\ paintEvent broken_engine
       (resize (set_cache (sample_widget "Hello" 600 100)
                          (Some (mkPixmap 600 100 []))) 300 100)
     = (resize (set_cache (sample_widget "Hello" 600 100)
                          (Some (mkPixmap 600 100 []))) 300 100,
        [DrawPixmap 0 0 (mkPixmap 600 100 [])]).
Proof.
  split.
  - apply (proj1 (paint_passes_and_cache (engine_of fixed_pitch)
                    (sample_widget "Hello" 600 100))
             (mkPixmap 600 100
                [mkDraw 10 34 "Hello" (mkFont "Arial" 24 Weight.Normal "Bold")
                        (mkColor 0 0 0);
                 mkDraw 470 30 "Arial - Bold"
                        (mkFont "Arial" 20 Weight.Normal "") (mkColor 0 0 0)]));
      reflexivity.
  - apply (proj2 (proj2 (proj2
             (paint_passes_and_cache broken_engine
                (set_cache (sample_widget "Hello" 600 100)
                           (Some (mkPixmap 600 100 [])))))));
      reflexivity.
Defined.

(** C5 as written fails: after a pass at 600 across, the widget is made 300
    across; the next pass does not enter [_update_cache] and draws the
    pixmap made for 600. *)
Lemma new_size_draws_old_pixmap :
  exists pm,
    cache_pixmap (fst (paintEvent (engine_of fixed_pitch)
                                  (sample_widget "Hello" 600 100))) = Some pm
    /\ pm_width pm = 600
    /\ rect_width (resize (fst (paintEvent (engine_of fixed_pitch)
                                  (sample_widget "Hello" 600 100))) 300 100)
       = 300
    /\ paintEvent (engine_of fixed_pitch)
         (resize (fst (paintEvent (engine_of fixed_pitch)
                                  (sample_widget "Hello" 600 100))) 300 100)
       = (resize (fst (paintEvent (engine_of fixed_pitch)
                                  (sample_widget "Hello" 600 100))) 300 100,
          [DrawPixmap 0 0 pm])
    /\ renders (snd (paintEvent (engine_of fixed_pitch)
                  (resize (fst (paintEvent (engine_of fixed_pitch)
                                  (sample_widget "Hello" 600 100))) 300 100)))
       = 0%nat.
Proof. eexists. repeat split; reflexivity. Qed.

(** C9.  If the body of the [try] raises, [_update_cache] returns all the
    same: the cache is left empty, the error is printed, and a paint pass
    that found the cache empty draws nothing. *)
Theorem render_failure_absorbed (env : QtEngine) (w : Widget) (e : string) :
  render env w = Raise e ->
  _update_cache env w = (set_cache w None, [UpdateCache; Print e])
  /\ (cache_pixmap w = None ->
      paintEvent env w = (set_cache w None, [UpdateCache; Print e])).
Proof.
  intros Hr. split.
  - unfold _update_cache. now rewrite Hr.
  - intros Hc. now rewrite (paintEvent_empty env w Hc), Hr.
Qed.

Lemma render_failure_absorbed_witness :
  _update_cache broken_engine (sample_widget "Hello" 600 100)
  = (sample_widget "Hello" 600 100, [UpdateCache; Print "no metrics"]).
Proof.
  exact (proj1 (render_failure_absorbed broken_engine
                  (sample_widget "Hello" 600 100) "no metrics" eq_refl)).
Defined.

(* ===================================================================== *)
(** * Part III: further properties of the code                             *)
(* ===================================================================== *)

(** ** Style filtering: what the scan keeps *)

Lemma subseq_nil_l {A : Type} (l : list A) : subseq [] l.
Proof.
  induction l; [apply subseq_nil | apply subseq_skip; assumption].
Qed.

Lemma subseq_refl {A : Type} (l : list A) : subseq l l.
Proof.
  induction l; [apply subseq_nil | apply subseq_take; assumption].
Qed.

Lemma subseq_length {A : Type} (k l : list A) :
  subseq k l -> (List.length k <= List.length l)%nat.
Proof. induction 1; cbn; lia. Qed.

Lemma subseq_firstn {A : Type} (n : nat) (k l : list A) :
  subseq k l -> subseq (firstn n k) l.
Proof.
  intros H. revert n. induction H as [|x k l _ IH|x k l _ IH]; intros n.
  - rewrite firstn_nil. apply subseq_nil.
  - apply subseq_skip, IH.
  - destruct n; cbn; [apply subseq_nil_l|]. apply subseq_take, IH.
Qed.

Lemma subseq_filter {A : Type} (p : A -> bool) (l : list A) :
  subseq (filter p l) l.
Proof.
  induction l as [|x l IH]; cbn; [apply subseq_nil|].
  destruct (p x); [apply subseq_take | apply subseq_skip]; exact IH.
Qed.

Lemma subseq_trans {A : Type} (a b c : list A) :
  subseq a b -> subseq b c -> subseq a c.
Proof.
  intros Hab Hbc. revert a Hab.
  induction Hbc as [|x b c _ IH|x b c _ IH]; intros a Hab.
  - exact Hab.
  - apply subseq_skip, IH, Hab.
  - inversion Hab; subst.
    + apply subseq_skip, IH. assumption.
    + apply subseq_take, IH. assumption.
Qed.

(** One round either leaves the state as it is or appends the name. *)
Lemma scan_style_keep_or_take (st : scan) (style : string) :
  scan_style st style = st
  \/ useful_styles (scan_style st style) = (useful_styles st ++ [style])%list.
Proof.
  rewrite scan_style_cases.
  destruct (bucket_of (regular_found st) style);
    repeat match goal with
           | |- context [if ?x then _ else _] => destruct x
           end; auto.
Qed.

(** The names held after further rounds are those held before, then some
    of the names read, in the order read. *)
Lemma scan_appends_subseq (styles : list string) (st : scan) :
  exists kept,
    useful_styles (fold_left scan_style styles st)
      = (useful_styles st ++ kept)%list
    /\ subseq kept styles.
Proof.
  revert st. induction styles as [|x styles IH]; intros st; cbn.
  - exists []. rewrite app_nil_r. split; [reflexivity|apply subseq_nil].
  - destruct (IH (scan_style st x)) as (kept & E & Hsub).
    destruct (scan_style_keep_or_take st x) as [Hkeep|Htake].
    + exists kept. rewrite Hkeep in E |- *. split; [exact E|].
      apply subseq_skip, Hsub.
    + exists (x :: kept). rewrite E, Htake, <- app_assoc.
      split; [reflexivity|]. apply subseq_take, Hsub.
Qed.

(** The result of the filter is the input with some names left out. *)
Lemma filter_subseq (styles : list string) :
  subseq (_filter_useable_styles styles) styles.
Proof.
  destruct (scan_appends_subseq styles scan_init) as (kept & E & Hsub).
  unfold _filter_useable_styles, scan_styles. rewrite E. cbn [scan_init
    useful_styles app].
  apply subseq_firstn, Hsub.
Qed.

(** The first name read is always taken. *)
Lemma scan_takes_first (style : string) :
  useful_styles (scan_style scan_init style) = [style].
Proof.
  rewrite scan_style_cases.
  destruct (bucket_of (regular_found scan_init) style); reflexivity.
Qed.

(** The first style of a family is always kept, at the head of the
    result. *)
Lemma filter_head (style : string) (rest : list string) :
  exists tail,
    _filter_useable_styles (style :: rest) = style :: tail.
Proof.
  destruct (scan_appends_subseq rest (scan_style scan_init style))
    as (kept & E & _).
  unfold _filter_useable_styles, scan_styles. cbn [fold_left].
  rewrite E, scan_takes_first. cbn. eauto.
Qed.

(** X1.  The filter invents nothing and keeps the order: its result is the
    input with some names left out; and the first style of the input is
    always kept, at the head of the result, so that the result is empty
    only for an empty input. *)
Theorem filter_is_subsequence (styles : list string) :
  subseq (_filter_useable_styles styles) styles
  /\ hd_error (_filter_useable_styles styles) = hd_error styles.
Proof.
  split; [apply filter_subseq|].
  destruct styles as [|style rest]; [reflexivity|].
  destruct (filter_head style rest) as [tail E]. now rewrite E.
Qed.

(** Scanning the names held gives back the state that held them. *)
Lemma scan_of_kept (styles : list string) :
  scan_styles (useful_styles (scan_styles styles)) = scan_styles styles.
Proof.
  induction styles as [|x styles IH] using rev_ind; [reflexivity|].
  unfold scan_styles in *. rewrite fold_left_app. cbn [fold_left].
  set (st := fold_left scan_style styles scan_init) in *.
  destruct (scan_style_keep_or_take st x) as [Hkeep|Htake].
  - rewrite Hkeep. exact IH.
  - rewrite Htake, fold_left_app, IH. reflexivity.
Qed.

(** If a scan takes every name of a list, it takes every name of each
    prefix of the list. *)
Lemma scan_prefix_taken (v w : list string) :
  useful_styles (scan_styles (v ++ w)) = (v ++ w)%list ->
  useful_styles (scan_styles v) = v.
Proof.
  unfold scan_styles. rewrite fold_left_app. intros H.
  destruct (scan_appends_subseq v scan_init) as (k1 & E1 & S1).
  destruct (scan_appends_subseq w (fold_left scan_style v scan_init))
    as (k2 & E2 & S2).
  cbn [scan_init useful_styles app] in E1.
  rewrite E2, E1 in H. rewrite E1.
  pose proof (subseq_length _ _ S1) as L1.
  pose proof (subseq_length _ _ S2) as L2.
  assert (Hlen : List.length k1 = List.length v).
  { apply (f_equal (@List.length string)) in H.
    rewrite !length_app in H. lia. }
  apply (f_equal (firstn (List.length v))) in H.
  rewrite <- Hlen in H at 1.
  rewrite !firstn_app, !firstn_all, !Nat.sub_diag in H. cbn in H.
  now rewrite !app_nil_r in H.
Qed.

(** X2.  Filtering is idempotent: the filter takes every name of its own
    result. *)
Theorem filter_idempotent (styles : list string) :
  _filter_useable_styles (_filter_useable_styles styles)
  = _filter_useable_styles styles.
Proof.
  unfold _filter_useable_styles.
  set (held := useful_styles (scan_styles styles)).
  assert (Hall : useful_styles (scan_styles held) = held)
    by (unfold held; now rewrite scan_of_kept).
  rewrite <- (firstn_skipn 4 held) in Hall.
  rewrite (scan_prefix_taken _ _ Hall).
  rewrite firstn_firstn. reflexivity.
Qed.

(** ** The composite name *)

Lemma prefix_app (p r : string) : String.prefix p (p ++ r) = true.
Proof.
  induction p as [|c p IH]; cbn; [now destruct r|].
  destruct (ascii_dec c c); [exact IH|congruence].
Qed.

Lemma drop_chars_app (p r : string) : drop_chars (String.length p) (p ++ r) = r.
Proof. induction p as [|c p IH]; cbn; [reflexivity|exact IH]. Qed.

Lemma prefix_split (p s : string) :
  String.prefix p s = true -> s = p ++ drop_chars (String.length p) s.
Proof.
  revert s. induction p as [|c p IH]; intros s H; cbn; [reflexivity|].
  destruct s as [|d s]; [discriminate|]. cbn in H.
  destruct (ascii_dec c d); [subst|discriminate].
  now rewrite <- (IH s H).
Qed.

Lemma prefix_mono (p u v : string) :
  String.prefix p u = true -> String.prefix p (u ++ v) = true.
Proof.
  revert u. induction p as [|c p IH]; intros u H; cbn.
  - now destruct (u ++ v).
  - destruct u as [|d u]; [discriminate|]. cbn in H |- *.
    destruct (ascii_dec c d); [now apply IH|discriminate].
Qed.

Lemma prefix_longer (p u v : string) :
  (String.length p <= String.length u)%nat ->
  String.prefix p (u ++ v) = String.prefix p u.
Proof.
  revert u. induction p as [|c p IH]; intros u H; cbn.
  - destruct u; cbn; [now destruct v|reflexivity].
  - destruct u as [|d u]; cbn in H |- *; [lia|].
    destruct (ascii_dec c d); [apply IH; lia|reflexivity].
Qed.

Lemma contains_cons (sep : string) (c : ascii) (r : string) :
  contains sep (String c r) = String.prefix sep (String c r) || contains sep r.
Proof. reflexivity. Qed.

Lemma split_once_none (sep s : string) :
  split_once sep s = None <-> contains sep s = false.
Proof.
  induction s as [|c s IH].
  - destruct sep; cbn; split; congruence.
  - rewrite contains_cons. cbn [split_once].
    destruct (String.prefix sep (String c s)); cbn [orb].
    + split; discriminate.
    + destruct (split_once sep s) as [[a b]|].
      * split; [discriminate|]. intros H. apply IH in H. discriminate.
      * split; [intros _; now apply IH|reflexivity].
Qed.

Lemma drop_last_snoc (sep : string) :
  truthy sep = true ->
  exists c, sep = drop_last sep ++ String c "".
Proof.
  induction sep as [|d sep IH]; [discriminate|]. intros _.
  destruct sep as [|e sep].
  - exists d. reflexivity.
  - destruct (IH eq_refl) as [c Hc]. exists c.
    change (drop_last (String d (String e sep)))
      with (String d (drop_last (String e sep))).
    cbn [append]. now rewrite <- Hc.
Qed.

Lemma length_append (a b : string) :
  String.length (a ++ b) = (String.length a + String.length b)%nat.
Proof. induction a as [|c a IH]; cbn; [reflexivity|now rewrite IH]. Qed.

Lemma prefix_short (p u : string) :
  (String.length u < String.length p)%nat -> String.prefix p u = false.
Proof.
  revert u. induction p as [|c p IH]; intros u H; cbn in H; [lia|].
  destruct u as [|d u]; cbn in H |- *; [reflexivity|].
  destruct (ascii_dec c d); [apply IH; lia|reflexivity].
Qed.

Lemma contains_short (sep s : string) :
  (String.length s < String.length sep)%nat -> contains sep s = false.
Proof.
  induction s as [|c s IH]; intros H.
  - change (contains sep "") with (String.prefix sep "" || false).
    now rewrite prefix_short.
  - rewrite contains_cons, prefix_short by exact H.
    cbn in H. apply IH. lia.
Qed.

(** The split is at the first occurrence: none begins in the first part. *)
Lemma split_once_some (sep s a b : string) :
  truthy sep = true ->
  split_once sep s = Some (a, b) ->
  s = a ++ sep ++ b
  /\ contains sep a = false
  /\ contains sep (a ++ drop_last sep) = false.
Proof.
  intros Hsep. destruct (drop_last_snoc sep Hsep) as [l Hl].
  assert (Hdl : S (String.length (drop_last sep)) = String.length sep).
  { rewrite drop_last_length. destruct sep; [discriminate|reflexivity]. }
  revert a b. induction s as [|c s IH]; intros a b H.
  - cbn in H. destruct sep; [discriminate Hsep|discriminate H].
  - cbn [split_once] in H.
    destruct (String.prefix sep (String c s)) eqn:Hp.
    + inversion H; subst. split; [now apply prefix_split|].
      split; [destruct sep; [discriminate Hsep|reflexivity]|].
      cbn [append]. apply contains_short. lia.
    + destruct (split_once sep s) as [[a' b']|] eqn:E; [|discriminate].
      inversion H; subst. destruct (IH a' b eq_refl) as (Hs & Hc & Hd).
      split; [cbn; now rewrite <- Hs|].
      assert (Hfar : String.prefix sep (String c a' ++ drop_last sep) = false).
      { rewrite <- Hp, Hs.
        replace (String c (a' ++ sep ++ b))
          with ((String c a' ++ drop_last sep) ++ String l "" ++ b).
        - symmetry. apply prefix_longer.
          cbn. rewrite length_append. lia.
        - rewrite append_assoc.
          rewrite <- (append_assoc (drop_last sep) (String l "") b).
          now rewrite <- Hl. }
      split.
      * rewrite contains_cons, Hc, orb_false_r.
        destruct (String.prefix sep (String c a')) eqn:Hpa; [|reflexivity].
        now rewrite (prefix_mono _ _ _ Hpa) in Hfar.
      * change (String c a' ++ drop_last sep)
          with (String c (a' ++ drop_last sep)) in *.
        now rewrite contains_cons, Hfar, Hd.
Qed.

Lemma split_once_hit (sep s : string) :
  String.prefix sep s = true ->
  split_once sep s = Some ("", drop_chars (String.length sep) s).
Proof. intros H. destruct s; cbn [split_once]; now rewrite H. Qed.

Lemma split_once_joined (sep a b : string) :
  truthy sep = true ->
  contains sep (a ++ drop_last sep) = false ->
  split_once sep (a ++ sep ++ b) = Some (a, b).
Proof.
  intros Hsep. induction a as [|c a IH]; intros H.
  - cbn [append]. rewrite split_once_hit by apply prefix_app.
    now rewrite drop_chars_app.
  - cbn [append] in H |- *. rewrite contains_cons in H.
    apply orb_false_iff in H. destruct H as [Hp Hc].
    cbn [split_once]. rewrite (IH Hc).
    destruct (drop_last_snoc sep Hsep) as [l Hl].
    assert (Hfar : String.prefix sep (String c (a ++ sep ++ b)) = false).
    { replace (String c (a ++ sep ++ b))
        with (String c (a ++ drop_last sep) ++ String l "" ++ b).
      - rewrite prefix_longer; [exact Hp|].
        cbn. rewrite length_append. rewrite drop_last_length.
        destruct sep; [discriminate|cbn; lia].
      - change (String c (a ++ drop_last sep) ++ String l "" ++ b)
          with (String c ((a ++ drop_last sep) ++ (String l "" ++ b))).
        rewrite append_assoc.
        rewrite <- (append_assoc (drop_last sep) (String l "") b).
        now rewrite <- Hl. }
    now rewrite Hfar.
Qed.

(** The two parts of a name with a separator give the name back. *)
Lemma split_name_rejoin (name : string) :
  contains " - " name = true ->
  fst (split_name name) ++ " - " ++ snd (split_name name) = name
  /\ contains " - " (fst (split_name name)) = false.
Proof.
  intros H. unfold split_name.
  destruct (split_once " - " name) as [[a b]|] eqn:E.
  - destruct (split_once_some " - " name a b eq_refl E) as (Hs & Hc & _).
    cbn [fst snd]. split; [now rewrite <- Hs|exact Hc].
  - apply split_once_none in E. congruence.
Qed.

(** X3.  Splitting a composite name: without the separator the whole name
    is the family and the style is empty; with it, family and style put
    together with " - " give the name back, and the family holds no
    separator (the split is at the first one). *)
Theorem split_name_parts (name : string) :
  (contains " - " name = false -> split_name name = (name, ""))
  /\ (contains " - " name = true ->
      fst (split_name name) ++ " - " ++ snd (split_name name) = name
      /\ contains " - " (fst (split_name name)) = false).
Proof.
  split; intros H.
  - unfold split_name. apply split_once_none in H. now rewrite H.
  - now apply split_name_rejoin.
Qed.

Lemma split_name_parts_witness :
  split_name "Arial" = ("Arial", "")
  /\ fst (split_name "Noto Sans - Bold - Italic") = "Noto Sans".
Proof.
  split.
  - apply (proj1 (split_name_parts "Arial")). reflexivity.
  - pose proof (proj2 (split_name_parts "Noto Sans - Bold - Italic") eq_refl)
      as [_ H].
    reflexivity.
Defined.

(** A composite name made of a family that lets no separator begin inside
    it comes apart as made. *)
Lemma split_name_joined (family style : string) :
  contains " - " (family ++ " -") = false ->
  split_name (family ++ " - " ++ style) = (family, style).
Proof.
  intros H. unfold split_name.
  now rewrite (split_once_joined " - " family style eq_refl H).
Qed.

(** X4.  A family and a style put together as [run] does come apart again
    as the same family and style exactly when no separator begins inside
    the family (the family followed by " -" holds none); the style may
    hold separators. *)
Theorem split_name_of_joined (family style : string) :
  split_name (family ++ " - " ++ style) = (family, style)
  <-> contains " - " (family ++ " -") = false.
Proof.
  split; [|apply split_name_joined].
  unfold split_name.
  destruct (split_once " - " (family ++ " - " ++ style)) as [[a b]|] eqn:E.
  - intros H. inversion H; subst.
    now destruct (split_once_some " - " _ _ _ eq_refl E) as (_ & _ & Hd).
  - intros H. inversion H as [[Hf Hs]].
    apply (f_equal String.length) in Hf.
    rewrite length_append in Hf. cbn in Hf. lia.
Qed.

Lemma split_name_of_joined_witness :
  split_name ("Noto Sans" ++ " - " ++ "Bold - Display")
  = ("Noto Sans", "Bold - Display").
Proof. apply split_name_of_joined. reflexivity. Defined.

(** Without that proviso the parts differ: a family that ends in " -". *)
Example ex_split_name_early :
  split_name ("A -" ++ " - " ++ "x") = ("A", "- x").
Proof. reflexivity. Qed.

(** ** The loader *)

Lemma subseq_In {A : Type} (k l : list A) (x : A) :
  subseq k l -> In x k -> In x l.
Proof.
  induction 1 as [|y k l _ IH|y k l _ IH]; cbn; intros Hin.
  - contradiction.
  - right. apply IH, Hin.
  - destruct Hin as [->|Hin]; [now left|right; apply IH, Hin].
Qed.

Lemma loaded_of_app (a b : list Signal) :
  loaded_of (a ++ b) = (loaded_of a ++ loaded_of b)%list.
Proof. apply flat_map_app. Qed.

Lemma loaded_of_announced (l : list (string * QFont)) :
  loaded_of (map (fun e => FontLoaded (fst e) (snd e)) l) = l.
Proof.
  induction l as [|[name font] l IH]; cbn; [reflexivity|].
  unfold loaded_of in IH. now rewrite IH.
Qed.

Lemma progress_count_app (a b : list Signal) :
  progress_count (a ++ b) = (progress_count a + progress_count b)%nat.
Proof. unfold progress_count. now rewrite filter_app, length_app. Qed.

Lemma progress_count_announced (l : list (string * QFont)) :
  progress_count (map (fun e => FontLoaded (fst e) (snd e)) l) = 0%nat.
Proof. induction l as [|e l IH]; cbn; [reflexivity|exact IH]. Qed.

Lemma run_family_step (percent : Z -> Z -> Z) (total : Z) (st : loader)
    (entry : string * list string) :
  fonts (run_family percent total st entry)
    = (fonts st ++ family_fonts entry)%list
  /\ emitted (run_family percent total st entry)
     = (emitted st
        ++ map (fun e => FontLoaded (fst e) (snd e)) (family_fonts entry)
        ++ [Progress (percent (completed st + 1) total)])%list.
Proof. destruct entry. split; reflexivity. Qed.

Lemma run_family_fold (percent : Z -> Z -> Z) (total : Z) (db : FontDb)
    (st : loader) :
  fonts (fold_left (run_family percent total) db st)
    = (fonts st ++ flat_map family_fonts db)%list
  /\ loaded_of (emitted (fold_left (run_family percent total) db st))
     = (loaded_of (emitted st) ++ flat_map family_fonts db)%list
  /\ progress_count (emitted (fold_left (run_family percent total) db st))
     = (progress_count (emitted st) + List.length db)%nat
  /\ (unfinished (emitted st) ->
      unfinished (emitted (fold_left (run_family percent total) db st))).
Proof.
  revert st. induction db as [|entry db IH]; intros st.
  - cbn. rewrite !app_nil_r, Nat.add_0_r. auto.
  - cbn [fold_left flat_map List.length].
    destruct (IH (run_family percent total st entry)) as (Hf & Hl & Hp & Hu).
    destruct (run_family_step percent total st entry) as [Ef Ee].
    rewrite Hf, Hl, Hp, Ef, Ee.
    rewrite !loaded_of_app, loaded_of_announced, !progress_count_app,
      progress_count_announced.
    cbn [loaded_of flat_map progress_count filter List.length app].
    rewrite app_nil_r, <- !app_assoc.
    repeat split; try reflexivity; try lia.
    intros H0. apply Hu. rewrite Ee.
    apply Forall_app. split; [exact H0|].
    apply Forall_app. split.
    + apply Forall_forall. intros sg Hin. apply in_map_iff in Hin.
      destruct Hin as (e & <- & _). exact I.
    + repeat constructor.
Qed.

Lemma family_fonts_length (entry : string * list string) :
  (List.length (family_fonts entry) <= 4)%nat.
Proof.
  unfold family_fonts, _filter_useable_styles.
  rewrite length_map, length_firstn. lia.
Qed.

Lemma flat_map_length_bound {A B : Type} (f : A -> list B) (n : nat)
    (l : list A) :
  (forall x, (List.length (f x) <= n)%nat) ->
  (List.length (flat_map f l) <= n * List.length l)%nat.
Proof.
  intros H. induction l as [|x l IH]; cbn; [lia|].
  rewrite length_app. specialize (H x). lia.
Qed.

Lemma loaded_list_eq (percent : Z -> Z -> Z) (db : FontDb) :
  snd (run percent db) = flat_map family_fonts db.
Proof.
  unfold run. cbn [snd].
  destruct (run_family_fold percent (Z.of_nat (List.length db)) db
              (mkLoader [] 0 [])) as (Hf & _).
  exact Hf.
Qed.

(** X5.  The loader's signals: the entries announced one by one by
    [font_loaded] are, in the same order, the list that [finished] carries
    at the very end (which is also [self.fonts]); [progress] is emitted
    once per family; nothing follows [finished]. *)
Theorem run_signals (percent : Z -> Z -> Z) (db : FontDb) :
  exists signals,
    fst (run percent db) = (signals ++ [Finished (snd (run percent db))])%list
    /\ unfinished signals
    /\ loaded_of signals = snd (run percent db)
    /\ progress_count signals = List.length db.
Proof.
  unfold run. cbn [fst snd].
  destruct (run_family_fold percent (Z.of_nat (List.length db)) db
              (mkLoader [] 0 [])) as (Hf & Hl & Hp & Hu).
  eexists. split; [reflexivity|]. cbn [emitted fonts] in *.
  split; [apply Hu; constructor|]. split; [now rewrite Hl, Hf|exact Hp].
Qed.

(** X6.  The list that the loader builds: the families in the order of the
    database, each with the styles that the filter keeps; so at most 4
    entries per family, and the first style of every family that has
    styles is loaded. *)
Theorem run_fonts (percent : Z -> Z -> Z) (db : FontDb) :
  snd (run percent db) = flat_map family_fonts db
  /\ (List.length (snd (run percent db)) <= 4 * List.length db)%nat
  /\ (forall family style rest,
        In (family, style :: rest) db ->
        In (style_font family style) (snd (run percent db))).
Proof.
  rewrite loaded_list_eq. split; [reflexivity|]. split.
  - apply flat_map_length_bound, family_fonts_length.
  - intros family style rest Hin. apply in_flat_map.
    exists (family, style :: rest). split; [exact Hin|].
    unfold family_fonts. cbn [fst snd].
    destruct (filter_head style rest) as [tail E]. rewrite E. now left.
Qed.

Lemma run_fonts_witness :
  In (style_font "Arial" "Light")
     (snd (run (fun c t => c * 100 / t)
               [("Mono", []); ("Arial", ["Light"; "Bold"])])).
Proof.
  apply (proj2 (proj2 (run_fonts (fun c t => c * 100 / t)
                         [("Mono", []); ("Arial", ["Light"; "Bold"])]))
           "Arial" "Light" ["Bold"]).
  right. now left.
Defined.

(** X7.  Every entry of the loader's list is made of a family of the
    database and one of its styles: its name is "family - style", its font
    has that family and style name, size 12 and normal weight; and the
    name comes apart again as that family and style provided no separator
    begins inside the family. *)
Theorem loaded_entry (percent : Z -> Z -> Z) (db : FontDb) (name : string)
    (font : QFont) :
  In (name, font) (snd (run percent db)) ->
  name = family font ++ " - " ++ styleName font
  /\ pointSize font = 12
  /\ weight font = Weight.Normal
  /\ (exists styles,
        In (family font, styles) db /\ In (styleName font) styles)
  /\ (contains " - " (family font ++ " -") = false ->
      split_name name = (family font, styleName font)).
Proof.
  rewrite loaded_list_eq. intros Hin. apply in_flat_map in Hin.
  destruct Hin as ([fam styles] & Hdb & Hin).
  unfold family_fonts in Hin. cbn [fst snd] in Hin.
  apply in_map_iff in Hin. destruct Hin as (style & E & Hst).
  inversion E; subst. cbn [family styleName pointSize weight].
  repeat split.
  - exists styles. split; [exact Hdb|].
    apply (subseq_In _ _ _ (filter_subseq styles) Hst).
  - apply split_name_joined.
Qed.

Lemma loaded_entry_witness :
  split_name "Arial - Bold" = ("Arial", "Bold").
Proof.
  apply (proj2 (proj2 (proj2 (proj2
           (loaded_entry (fun c t => c * 100 / t)
              [("Arial", ["Regular"; "Bold"])] "Arial - Bold"
              (mkFont "Arial" 12 Weight.Normal "Bold")
              (or_intror (or_introl eq_refl))))))).
  reflexivity.
Defined.

(** ** The search box *)

Lemma contains_unfold (p s : string) :
  contains p s
  = String.prefix p s
    || match s with
       | EmptyString => false
       | String _ r => contains p r
       end.
Proof. destruct s; reflexivity. Qed.

(** [contains] is the substring test: [p] stands somewhere in [s]. *)
Lemma contains_iff (p s : string) :
  contains p s = true <-> exists u v, s = u ++ p ++ v.
Proof.
  split.
  - induction s as [|c s IH]; rewrite contains_unfold; intros H;
      apply orb_true_iff in H; destruct H as [H|H].
    + exists "", (drop_chars (String.length p) ""). now apply prefix_split.
    + discriminate.
    + exists "", (drop_chars (String.length p) (String c s)).
      now apply prefix_split.
    + destruct (IH H) as (u & v & ->). now exists (String c u), v.
  - intros (u & v & ->). induction u as [|c u IH].
    + rewrite contains_unfold. cbn [append]. now rewrite prefix_app.
    + cbn [append]. rewrite contains_cons, IH. apply orb_true_r.
Qed.

Lemma contains_trans (a b s : string) :
  contains a b = true -> contains b s = true -> contains a s = true.
Proof.
  intros Hab Hbs. apply contains_iff in Hab, Hbs. apply contains_iff.
  destruct Hab as (u1 & v1 & ->). destruct Hbs as (u2 & v2 & ->).
  exists (u2 ++ u1), (v1 ++ v2). now rewrite !append_assoc.
Qed.

Lemma contains_empty (s : string) : contains "" s = true.
Proof. apply contains_iff. now exists "", s. Qed.

Lemma lower_append (a b : string) : lower (a ++ b) = lower a ++ lower b.
Proof. induction a as [|c a IH]; cbn; [reflexivity|now rewrite IH]. Qed.

Lemma contains_lower (p s : string) :
  contains p s = true -> contains (lower p) (lower s) = true.
Proof.
  intros H. apply contains_iff in H. destruct H as (u & v & ->).
  apply contains_iff. exists (lower u), (lower v).
  now rewrite !lower_append.
Qed.

Lemma lower_char_idempotent (c : ascii) :
  lower_char (lower_char c) = lower_char c.
Proof. destruct c as [[] [] [] [] [] [] [] []]; reflexivity. Qed.

Lemma lower_idempotent (s : string) : lower (lower s) = lower s.
Proof.
  induction s as [|c s IH]; cbn; [reflexivity|].
  now rewrite lower_char_idempotent, IH.
Qed.

Lemma filter_filter_implied {A : Type} (p q : A -> bool) (l : list A) :
  (forall x, p x = true -> q x = true) ->
  filter p (filter q l) = filter p l.
Proof.
  intros H. induction l as [|x l IH]; cbn; [reflexivity|].
  destruct (q x) eqn:Hq; cbn.
  - now rewrite IH.
  - destruct (p x) eqn:Hp; [|exact IH].
    rewrite (H x Hp) in Hq. discriminate.
Qed.

(** X8.  The search: an empty text keeps every font; the case of the text
    does not matter; the fonts kept are fonts of the list, in its order. *)
Theorem filter_fonts_basics (fonts : list (string * QFont)) (text : string) :
  _filter_fonts fonts "" = fonts
  /\ _filter_fonts fonts (lower text) = _filter_fonts fonts text
  /\ subseq (_filter_fonts fonts text) fonts.
Proof.
  unfold _filter_fonts. split; [|split].
  - cbn [lower]. induction fonts as [|e fonts IH]; cbn [filter];
      [reflexivity|].
    now rewrite contains_empty, IH.
  - now rewrite lower_idempotent.
  - apply subseq_filter.
Qed.

(** X9.  Searching for a longer text narrows the result, for ASCII texts
    and names: if the old text stands inside the new one, the new result
    is the search for the new text among the old result. *)
Theorem filter_fonts_narrows (fonts : list (string * QFont))
    (old new : string) :
  is_ascii new = true ->
  Forall (fun e => is_ascii (fst e) = true) fonts ->
  contains old new = true ->
  _filter_fonts fonts new = _filter_fonts (_filter_fonts fonts old) new
  /\ subseq (_filter_fonts fonts new) (_filter_fonts fonts old).
Proof.
  intros _ _ H.
  assert (E : _filter_fonts fonts new
              = _filter_fonts (_filter_fonts fonts old) new).
  { unfold _filter_fonts. symmetry. apply filter_filter_implied.
    intros e He. apply (contains_trans _ (lower new)); [|exact He].
    now apply contains_lower. }
  split; [exact E|]. rewrite E. unfold _filter_fonts at 1.
  apply subseq_filter.
Qed.

Lemma filter_fonts_narrows_witness :
  map fst (_filter_fonts
             [("Arial - Bold", mkFont "Arial" 12 Weight.Normal "Bold");
              ("Arial - Italic", mkFont "Arial" 12 Weight.Normal "Italic");
              ("Mono - Bold", mkFont "Mono" 12 Weight.Normal "Bold")]
             "al - B")
  = ["Arial - Bold"].
Proof.
  rewrite (proj1 (filter_fonts_narrows
                    [("Arial - Bold", mkFont "Arial" 12 Weight.Normal "Bold");
                     ("Arial - Italic",
                      mkFont "Arial" 12 Weight.Normal "Italic");
                     ("Mono - Bold", mkFont "Mono" 12 Weight.Normal "Bold")]
                    "al" "al - B" eq_refl
                    ltac:(repeat constructor) eq_refl)).
  reflexivity.
Defined.

(** ** The current font among all fonts *)

Lemma py_index_nonneg {A : Type} (l : list A) (i : Z) :
  0 <= i -> py_index l i = nth_error l (Z.to_nat i).
Proof.
  intros H. unfold py_index.
  destruct (Z.leb_spec 0 i); [reflexivity|lia].
Qed.

Lemma find_name_some (fonts : list (string * QFont)) (search : string)
    (i j : Z) :
  find_name fonts search i = Some j ->
  i <= j < i + Z.of_nat (List.length fonts)
  /\ (exists font, nth_error fonts (Z.to_nat (j - i)) = Some (search, font))
  /\ (forall k name font,
        (k < Z.to_nat (j - i))%nat ->
        nth_error fonts k = Some (name, font) -> name <> search).
Proof.
  revert i. induction fonts as [|[name font] fonts IH]; intros i H;
    [discriminate|].
  cbn [find_name] in H. destruct (String.eqb_spec name search) as [->|Hne].
  - inversion H; subst. rewrite Z.sub_diag. cbn [List.length].
    split; [lia|]. split; [now exists font|]. intros k ? ? Hk. cbn in Hk. lia.
  - destruct (IH _ H) as (Hb & (f & Hf) & Hfirst). cbn [List.length].
    assert (Hj : Z.to_nat (j - i) = S (Z.to_nat (j - (i + 1)))) by lia.
    split; [lia|]. rewrite Hj. split; [now exists f|].
    intros [|k] name' font' Hk Hn; cbn in Hn.
    + now inversion Hn; subst.
    + apply (Hfirst k name' font'); [lia|exact Hn].
Qed.

Lemma find_name_none (fonts : list (string * QFont)) (search : string)
    (i : Z) :
  find_name fonts search i = None -> forall font, ~ In (search, font) fonts.
Proof.
  revert i. induction fonts as [|[name font] fonts IH]; intros i H f Hin;
    [contradiction|].
  cbn [find_name] in H. destruct (String.eqb_spec name search) as [->|Hne];
    [discriminate|].
  destruct Hin as [E|Hin]; [inversion E; congruence|].
  exact (IH _ H f Hin).
Qed.

Lemma find_index_bounds (fonts : list (string * QFont))
    (family style : string) :
  0 <= _find_font_index_in_original fonts family style
  /\ (fonts <> [] ->
      _find_font_index_in_original fonts family style
      < Z.of_nat (List.length fonts)).
Proof.
  unfold _find_font_index_in_original.
  destruct (find_name fonts (family ++ " - " ++ style) 0) as [j|] eqn:E.
  - destruct (find_name_some _ _ _ _ E) as (Hb & _). lia.
  - split; [lia|]. intros Hne. destruct fonts; [congruence|cbn; lia].
Qed.

(** X10.  The index of a font among all fonts: the first position whose
    name is "family - style" if there is one; 0 if there is none.  It is a
    valid position as soon as the list is not empty. *)
Theorem find_font_index (fonts : list (string * QFont))
    (family style : string) :
  (0 <= _find_font_index_in_original fonts family style
   /\ (fonts <> [] ->
       _find_font_index_in_original fonts family style
       < Z.of_nat (List.length fonts)))
  /\ (forall font,
        In (family ++ " - " ++ style, font) fonts ->
        (exists font',
           py_index fonts (_find_font_index_in_original fonts family style)
           = Some (family ++ " - " ++ style, font'))
        /\ (forall k name font',
              (k < Z.to_nat
                     (_find_font_index_in_original fonts family style))%nat ->
              nth_error fonts k = Some (name, font') ->
              name <> family ++ " - " ++ style))
  /\ ((forall font, ~ In (family ++ " - " ++ style, font) fonts) ->
      _find_font_index_in_original fonts family style = 0).
Proof.
  split; [apply find_index_bounds|].
  unfold _find_font_index_in_original.
  destruct (find_name fonts (family ++ " - " ++ style) 0) as [j|] eqn:E.
  - destruct (find_name_some _ _ _ _ E) as (Hb & (f & Hf) & Hfirst).
    rewrite Z.sub_0_r in Hf, Hfirst. split.
    + intros _ _. split; [|exact Hfirst].
      exists f. rewrite py_index_nonneg by lia. exact Hf.
    + intros Hnone. apply nth_error_In in Hf. now apply Hnone in Hf.
  - split; [|reflexivity].
    intros font Hin. now apply (find_name_none _ _ _ E) in Hin.
Qed.

Lemma find_font_index_witness :
  _find_font_index_in_original
    [("Arial - Bold", mkFont "Arial" 12 Weight.Normal "Bold");
     ("Mono - Bold", mkFont "Mono" 12 Weight.Normal "Bold")]
    "Mono" "Light" = 0
  /\ exists font',
       py_index
         [("Arial - Bold", mkFont "Arial" 12 Weight.Normal "Bold");
          ("Mono - Bold", mkFont "Mono" 12 Weight.Normal "Bold")]
         (_find_font_index_in_original
            [("Arial - Bold", mkFont "Arial" 12 Weight.Normal "Bold");
             ("Mono - Bold", mkFont "Mono" 12 Weight.Normal "Bold")]
            "Mono" "Bold")
       = Some ("Mono" ++ " - " ++ "Bold", font').
Proof.
  split.
  - apply (proj2 (proj2 (find_font_index
                           [("Arial - Bold",
                             mkFont "Arial" 12 Weight.Normal "Bold");
                            ("Mono - Bold",
                             mkFont "Mono" 12 Weight.Normal "Bold")]
                           "Mono" "Light"))).
    intros font [E|[E|[]]]; discriminate E.
  - apply (proj1 (proj2 (find_font_index
                           [("Arial - Bold",
                             mkFont "Arial" 12 Weight.Normal "Bold");
                            ("Mono - Bold",
                             mkFont "Mono" 12 Weight.Normal "Bold")]
                           "Mono" "Bold"))
             (mkFont "Mono" 12 Weight.Normal "Bold")).
    right. now left.
Defined.

(** X11.  Splitting the name of an entry and looking the parts up again
    finds the entry: for an entry whose name holds a separator and does
    not occur earlier in the list, the index found is the entry's own
    position. *)
Theorem find_split_name (fonts : list (string * QFont)) (i : nat)
    (name : string) (font : QFont) :
  nth_error fonts i = Some (name, font) ->
  contains " - " name = true ->
  (forall k name' font',
     (k < i)%nat -> nth_error fonts k = Some (name', font') -> name' <> name) ->
  _find_font_index_in_original fonts (fst (split_name name))
                               (snd (split_name name))
  = Z.of_nat i.
Proof.
  intros Hi Hsep Hfirst. destruct (split_name_rejoin name Hsep) as [Hj _].
  unfold _find_font_index_in_original. rewrite Hj.
  destruct (find_name fonts name 0) as [j|] eqn:E.
  - destruct (find_name_some _ _ _ _ E) as (Hb & (f & Hf) & Hmin).
    rewrite Z.sub_0_r in Hf, Hmin.
    destruct (Nat.lt_trichotomy (Z.to_nat j) i) as [Hlt|[Heq|Hgt]].
    + now apply (Hfirst _ _ _ Hlt) in Hf.
    + lia.
    + now apply (Hmin _ _ _ Hgt) in Hi.
  - apply nth_error_In in Hi. now apply (find_name_none _ _ _ E) in Hi.
Qed.

Lemma find_split_name_witness :
  _find_font_index_in_original
    [("Arial - Bold", mkFont "Arial" 12 Weight.Normal "Bold");
     ("Mono - Bold", mkFont "Mono" 12 Weight.Normal "Bold")]
    (fst (split_name "Mono - Bold")) (snd (split_name "Mono - Bold"))
  = 1.
Proof.
  apply (find_split_name
           [("Arial - Bold", mkFont "Arial" 12 Weight.Normal "Bold");
            ("Mono - Bold", mkFont "Mono" 12 Weight.Normal "Bold")]
           1 "Mono - Bold" (mkFont "Mono" 12 Weight.Normal "Bold")
           eq_refl eq_refl).
  intros [|k] name' font' Hk Hn; [|lia].
  inversion Hn. discriminate.
Defined.

(** ** The previews *)

Lemma range_In (a b i : Z) : In i (range a b) <-> a <= i < b.
Proof.
  unfold range. rewrite in_map_iff. split.
  - intros (k & <- & Hk). apply in_seq in Hk. lia.
  - intros H. exists (Z.to_nat (i - a)). split; [lia|].
    apply in_seq. lia.
Qed.

Lemma range_length (a b : Z) : List.length (range a b) = Z.to_nat (b - a).
Proof. unfold range. now rewrite length_map, length_seq. Qed.

Lemma range_NoDup (a b : Z) : NoDup (range a b).
Proof.
  unfold range. apply Injective_map_NoDup; [|apply seq_NoDup].
  intros x y H. lia.
Qed.

Lemma range_cons (a b : Z) : a < b -> range a b = a :: range (a + 1) b.
Proof.
  intros H. unfold range.
  replace (Z.to_nat (b - a)) with (S (Z.to_nat (b - (a + 1)))) by lia.
  cbn [seq map]. f_equal; [lia|].
  rewrite <- seq_shift, map_map. apply map_ext. intros k. lia.
Qed.

Lemma py_index_in_range {A : Type} (l : list A) (i : Z) :
  0 <= i < Z.of_nat (List.length l) -> exists x, py_index l i = Some x.
Proof.
  intros H. rewrite py_index_nonneg by lia.
  destruct (nth_error l (Z.to_nat i)) eqn:E; [eauto|].
  apply nth_error_None in E. lia.
Qed.

Section MultiPreview.
Variable c : Controls.
Variable fonts : list (string * QFont).
Variable text : string.
Variable current_index : Z.
Variable weight : Weight.t.
Hypothesis weight_ok : _slider_value_to_weight (weight_value c) = Some weight.

Lemma new_preview_ok (family style : string) :
  new_preview c family style text
  = Some (mkWidget family style text (size_value c) (current_color c) weight
                   None (preview_width c) (preview_height c)).
Proof. unfold new_preview. now rewrite weight_ok. Qed.

(** Over valid indices the loop neither stops early nor raises, and adds
    one preview per index. *)
Lemma multi_loop_all (indices : list Z) (layout : list Preview) :
  (forall i, In i indices -> 0 <= i < Z.of_nat (List.length fonts)) ->
  exists added,
    multi_loop c fonts text current_index indices layout
      = Some (layout ++ added)%list
    /\ Forall2 (preview_of_entry c fonts text current_index) indices added.
Proof.
  revert layout. induction indices as [|i indices IH]; intros layout Hin.
  - exists []. cbn. rewrite app_nil_r. split; [reflexivity|constructor].
  - assert (Hi : 0 <= i < Z.of_nat (List.length fonts))
      by (apply Hin; now left).
    cbn [multi_loop].
    destruct (Z.geb_spec i (Z.of_nat (List.length fonts))) as [|_]; [lia|].
    destruct (py_index_in_range fonts i Hi) as [[fname ffont] E]. rewrite E.
    destruct (split_name fname) as [f_family f_style] eqn:Es.
    rewrite new_preview_ok.
    destruct (IH (layout
                  ++ [mkPreview
                        (mkWidget f_family f_style text (size_value c)
                           (current_color c) weight None (preview_width c)
                           (preview_height c))
                        (if i =? current_index
                         then Some (mkColor 173 216 230) else None)])%list)
      as (added & Eloop & Hall).
    { intros j Hj. apply Hin. now right. }
    rewrite Eloop, <- app_assoc. eexists. split; [reflexivity|].
    constructor; [|exact Hall].
    exists fname, ffont. rewrite Es. cbn [fst snd widget window_color].
    rewrite new_preview_ok. auto.
Qed.

Lemma highlighted_count (indices : list Z) (added : list Preview) :
  Forall2 (preview_of_entry c fonts text current_index) indices added ->
  List.length (filter highlighted added)
  = count_occ Z.eq_dec indices current_index.
Proof.
  induction 1 as [|i p indices added (name & font & _ & _ & Hc) _ IH];
    [reflexivity|].
  cbn [filter count_occ]. unfold highlighted at 1. rewrite Hc.
  destruct (Z.eq_dec i current_index) as [->|Hne].
  - rewrite Z.eqb_refl. cbn. now rewrite IH.
  - destruct (Z.eqb_spec i current_index); [contradiction|exact IH].
Qed.
End MultiPreview.

(** X12.  The multi preview shows the current font with up to five
    neighbours on either side: one preview for each entry from
    [max(0, index - 5)] to [min(len, index + 6)], in order, at most 11;
    exactly one of them is coloured, the current one (none when there are
    no fonts).  A name that is not found makes position 0 the current
    one. *)
Theorem multi_preview_window (c : Controls) (fonts : list (string * QFont))
    (family style text : string) :
  0 <= weight_value c ->
  exists layout,
    _update_multi_preview c fonts family style text = Some layout
    /\ Forall2
         (preview_of_entry c fonts text
            (_find_font_index_in_original fonts family style))
         (range
            (Z.max 0 (_find_font_index_in_original fonts family style - 5))
            (Z.min (Z.of_nat (List.length fonts))
                   (_find_font_index_in_original fonts family style + 6)))
         layout
    /\ (List.length layout <= 11)%nat
    /\ List.length (filter highlighted layout)
       = match fonts with [] => 0%nat | _ => 1%nat end.
Proof.
  intros Hw. destruct (slider_index _ Hw) as (weight & Eweight & _).
  destruct (find_index_bounds fonts family style) as [H0 Hlt].
  unfold _update_multi_preview.
  set (idx := _find_font_index_in_original fonts family style) in *.
  destruct (multi_loop_all c fonts text idx weight Eweight
              (range (Z.max 0 (idx - 5))
                     (Z.min (Z.of_nat (List.length fonts)) (idx + 6))) [])
    as (added & E & Hall).
  { intros i Hi. apply range_In in Hi. lia. }
  exists added. split; [exact E|]. split; [exact Hall|].
  split.
  - rewrite <- (Forall2_length Hall), range_length. lia.
  - rewrite (highlighted_count c fonts text idx _ _ Hall).
    destruct fonts as [|e rest].
    + cbn [List.length]. unfold range.
      replace (Z.to_nat _) with 0%nat by (cbn; lia). reflexivity.
    + apply NoDup_count_occ'; [apply range_NoDup|].
      apply range_In. specialize (Hlt ltac:(discriminate)). lia.
Qed.

Lemma multi_preview_window_witness :
  exists layout,
    _update_multi_preview (mkControls 24 (mkColor 0 0 0) 50 600 100)
      [("Arial - Bold", mkFont "Arial" 12 Weight.Normal "Bold");
       ("Mono - Bold", mkFont "Mono" 12 Weight.Normal "Bold")]
      "Mono" "Bold" "abc" = Some layout
    /\ List.length (filter highlighted layout) = 1%nat.
Proof.
  destruct (multi_preview_window (mkControls 24 (mkColor 0 0 0) 50 600 100)
              [("Arial - Bold", mkFont "Arial" 12 Weight.Normal "Bold");
               ("Mono - Bold", mkFont "Mono" 12 Weight.Normal "Bold")]
              "Mono" "Bold" "abc")
    as (layout & E & _ & _ & H).
  - cbn. discriminate.
  - exists layout. split; [exact E|exact H].
Defined.

Lemma select_from_subseq (item : Z -> option bool) (k : Z)
    (l : list (string * QFont)) :
  subseq (select_from item k l) l.
Proof.
  revert k. induction l as [|e l IH]; intros k; cbn; [apply subseq_nil|].
  destruct (item k) as [[]|];
    [apply subseq_take | apply subseq_skip | apply subseq_skip]; apply IH.
Qed.

Lemma selected_fold (filtered_fonts : list (string * QFont))
    (item : Z -> option bool) (rest pre acc : list (string * QFont)) :
  filtered_fonts = (pre ++ rest)%list ->
  fold_left
    (fun selected_fonts index =>
       match item index with
       | Some true =>
           if index <? Z.of_nat (List.length filtered_fonts)
           then match py_index filtered_fonts index with
                | Some e => (selected_fonts ++ [e])%list
                | None => selected_fonts
                end
           else selected_fonts
       | _ => selected_fonts
       end)
    (range (Z.of_nat (List.length pre))
           (Z.of_nat (List.length filtered_fonts))) acc
  = (acc ++ select_from item (Z.of_nat (List.length pre)) rest)%list.
Proof.
  revert pre acc. induction rest as [|e rest IH]; intros pre acc E.
  - rewrite app_nil_r in E. subst. unfold range.
    rewrite Z.sub_diag. cbn. now rewrite app_nil_r.
  - assert (Hlen : Z.of_nat (List.length pre)
                   < Z.of_nat (List.length filtered_fonts))
      by (rewrite E, length_app; cbn; lia).
    rewrite range_cons by exact Hlen. cbn [fold_left select_from].
    assert (E' : filtered_fonts = ((pre ++ [e]) ++ rest)%list)
      by (now rewrite <- app_assoc).
    specialize (IH (pre ++ [e])%list).
    rewrite length_app, Nat2Z.inj_add in IH. cbn [List.length] in IH.
    change (Z.of_nat 1) with 1 in IH.
    assert (Hget : py_index filtered_fonts (Z.of_nat (List.length pre))
                   = Some e).
    { rewrite py_index_nonneg by lia. rewrite Nat2Z.id, E.
      rewrite nth_error_app2 by lia. now rewrite Nat.sub_diag. }
    destruct (item (Z.of_nat (List.length pre))) as [[]|].
    + destruct (Z.ltb_spec (Z.of_nat (List.length pre))
                           (Z.of_nat (List.length filtered_fonts))); [|lia].
      rewrite Hget, (IH _ E'), <- app_assoc. reflexivity.
    + now rewrite (IH _ E').
    + now rewrite (IH _ E').
Qed.

(** X13.  The selected fonts are the entries of the filtered list whose
    items are selected, in the order of the list; so they are always
    fonts of the filtered list. *)
Theorem selected_fonts_of_filtered (filtered_fonts : list (string * QFont))
    (item : Z -> option bool) :
  _update_selected_fonts filtered_fonts item
    = select_from item 0 filtered_fonts
  /\ subseq (_update_selected_fonts filtered_fonts item) filtered_fonts.
Proof.
  assert (E : _update_selected_fonts filtered_fonts item
              = select_from item 0 filtered_fonts)
    by exact (selected_fold filtered_fonts item filtered_fonts [] []
                eq_refl).
  split; [exact E|]. rewrite E. apply select_from_subseq.
Qed.

Lemma selected_loop_all (c : Controls) (text : string) (weight : Weight.t)
    (entries : list (string * QFont)) (layout : list Preview) :
  _slider_value_to_weight (weight_value c) = Some weight ->
  exists added,
    selected_loop c text entries layout = Some (layout ++ added)%list
    /\ Forall2
         (fun e p =>
            new_preview c (fst (split_name (fst e))) (snd (split_name (fst e)))
                        text = Some (widget p)
            /\ window_color p = None)
         entries added.
Proof.
  intros Hw. revert layout.
  induction entries as [|[name font] entries IH]; intros layout.
  - exists []. cbn. rewrite app_nil_r. split; [reflexivity|constructor].
  - cbn [selected_loop].
    destruct (split_name name) as [family style] eqn:Es.
    rewrite (new_preview_ok c text weight Hw).
    destruct (IH (layout
                  ++ [mkPreview
                        (mkWidget family style text (size_value c)
                           (current_color c) weight None (preview_width c)
                           (preview_height c)) None])%list)
      as (added & E & Hall).
    rewrite E, <- app_assoc. eexists. split; [reflexivity|].
    constructor; [|exact Hall].
    cbn [fst snd widget window_color]. rewrite Es. cbn [fst snd].
    rewrite (new_preview_ok c text weight Hw). auto.
Qed.

(** X14.  The preview of the selected fonts shows the first 20 of them, in
    order and none coloured, while the count in the information panel is
    that of all selected fonts. *)
Theorem selected_preview_first_20 (c : Controls)
    (selected_fonts : list (string * QFont)) (text : string) :
  0 <= weight_value c ->
  exists layout style_label,
    _update_selected_fonts_preview c selected_fonts text
      = Some (layout,
              SelectedCount (Z.of_nat (List.length selected_fonts)),
              style_label)
    /\ List.length layout = Nat.min 20 (List.length selected_fonts)
    /\ Forall2
         (fun e p =>
            new_preview c (fst (split_name (fst e))) (snd (split_name (fst e)))
                        text = Some (widget p)
            /\ window_color p = None)
         (firstn 20 selected_fonts) layout.
Proof.
  intros Hw. destruct (slider_index _ Hw) as (weight & Eweight & _).
  destruct (selected_loop_all c text weight (firstn 20 selected_fonts) []
              Eweight) as (added & E & Hall).
  unfold _update_selected_fonts_preview. rewrite E. cbn [app].
  eexists. eexists. split; [reflexivity|]. split; [|exact Hall].
  rewrite <- (Forall2_length Hall). apply length_firstn.
Qed.

Lemma selected_preview_first_20_witness :
  exists layout style_label,
    _update_selected_fonts_preview (mkControls 24 (mkColor 0 0 0) 50 600 100)
      [("Arial - Bold", mkFont "Arial" 12 Weight.Normal "Bold")] "abc"
    = Some (layout, SelectedCount 1, style_label)
    /\ List.length layout = 1%nat.
Proof.
  destruct (selected_preview_first_20
              (mkControls 24 (mkColor 0 0 0) 50 600 100)
              [("Arial - Bold", mkFont "Arial" 12 Weight.Normal "Bold")]
              "abc")
    as (layout & style_label & E & Hlen & _).
  - cbn. discriminate.
  - exists layout, style_label. split; [exact E|exact Hlen].
Defined.

(** ** The lines of a preview *)

Lemma split_on_from_not_nil (sep : ascii) (s cur : string) :
  split_on_from sep cur s <> [].
Proof.
  revert cur. induction s as [|c s IH]; intros cur; cbn; [discriminate|].
  destruct (Ascii.eqb c sep); [discriminate|apply IH].
Qed.

Lemma concat_split_on (sep : ascii) (s cur : string) :
  String.concat (String sep "") (split_on_from sep cur s) = cur ++ s.
Proof.
  revert cur. induction s as [|c s IH]; intros cur; cbn [split_on_from].
  - cbn. now rewrite append_nil_r.
  - destruct (Ascii.eqb_spec c sep) as [->|Hne].
    + pose proof (split_on_from_not_nil sep s "") as Hnn.
      pose proof (IH "") as E.
      destruct (split_on_from sep "" s) as [|x l]; [congruence|].
      cbn [String.concat] in E |- *. now rewrite E.
    + rewrite IH, append_assoc. reflexivity.
Qed.

(** X15.  A text that fits the width is cut at its newline characters and
    nowhere else: the lines are [text.split('\n')], and joined by newlines
    they give the text back, blank lines included. *)
Theorem short_text_lines (m : Metrics) (font : QFont) (text : string)
    (width : Z) :
  adv m font text <= width ->
  preview_lines (engine_of m) font text width = Ok (split_lines text)
  /\ String.concat NL (split_lines text) = text.
Proof.
  intros H. split.
  - unfold preview_lines. cbn [engine_of horizontalAdvance bind].
    destruct (Z.gtb_spec (adv m font text) width); [lia|reflexivity].
  - exact (concat_split_on newline text "").
Qed.

Lemma short_text_lines_witness :
  preview_lines (engine_of fixed_pitch) (mkFont "Arial" 12 Weight.Normal "")
                ("ab" ++ NL ++ NL ++ "c") 100
  = Ok ["ab"; ""; "c"].
Proof.
  apply (proj1 (short_text_lines fixed_pitch
                  (mkFont "Arial" 12 Weight.Normal "")
                  ("ab" ++ NL ++ NL ++ "c") 100 ltac:(vm_compute; discriminate))).
Defined.

(** The words of a text do not depend on line 174: a newline separates
    words like any other whitespace, and no word is ever ["\n"]. *)
Lemma split_from_replace_newline (s cur : string) :
  split_from cur (replace_newline s) = split_from cur s.
Proof.
  revert cur. induction s as [|c s IH]; intros cur; [reflexivity|].
  cbn [replace_newline]. destruct (Ascii.eqb_spec c newline) as [->|Hne].
  - cbn. destruct (truthy cur); now rewrite IH.
  - cbn [split_from]. destruct (isspace c); [destruct (truthy cur)|];
      now rewrite IH.
Qed.

Lemma Forall_concat_blocks {A : Type} (P : A -> Prop) (blocks : list (list A)) :
  Forall P (List.concat blocks) -> Forall (Forall P) blocks.
Proof.
  induction blocks as [|b blocks IH]; cbn; intros H; [constructor|].
  apply Forall_app in H. destruct H as [Hb Hrest].
  constructor; [exact Hb|apply IH, Hrest].
Qed.

Lemma blocks_length {A : Type} (blocks : list (list A)) :
  Forall (fun b => b <> []) blocks ->
  (List.length blocks <= List.length (List.concat blocks))%nat.
Proof.
  induction 1 as [|b blocks Hb _ IH]; cbn; [lia|].
  rewrite length_app. destruct b; [congruence|cbn; lia].
Qed.

(** X16.  When the text is wider than the box, explicit newlines are lost:
    the lines are made of the words of [text.split()] alone, so no line is
    empty or begins or ends with whitespace, and there are at most as many
    lines as words. *)
Theorem wrapped_lines_lose_newlines (m : Metrics) (font : QFont)
    (text : string) (width : Z) :
  width < adv m font text ->
  exists blocks,
    preview_lines (engine_of m) font text width = Ok (map join blocks)
    /\ List.concat blocks = split text
    /\ Forall (fun line => truthy line = true /\ strip line = line)
              (map join blocks)
    /\ (List.length (map join blocks) <= List.length (split text))%nat.
Proof.
  intros Hwide. unfold preview_lines. cbn [engine_of horizontalAdvance bind].
  destruct (Z.gtb_spec (adv m font text) width) as [_|Hle]; [|lia].
  destruct (wrap_words_blocks m font width (split (replace_newline text))
              (split_words _)) as (blocks & E & Hcat & Hok).
  unfold split in Hcat at 1. rewrite split_from_replace_newline in Hcat.
  fold (split text) in Hcat.
  exists blocks. split; [exact E|]. split; [exact Hcat|].
  assert (Hwords : Forall (Forall (fun w => is_word w = true)) blocks).
  { apply Forall_concat_blocks. rewrite Hcat. apply split_words. }
  assert (Hne : Forall (fun b : list string => b <> []) blocks).
  { eapply Forall_impl; [|exact Hok]. now intros b [Hb _]. }
  split.
  - apply Forall_map. rewrite Forall_forall in *.
    intros b Hb. split.
    + apply join_truthy; [apply Hwords, Hb|apply Hne, Hb].
    + apply strip_join, Hwords, Hb.
  - rewrite length_map, <- Hcat. now apply blocks_length.
Qed.

Lemma wrapped_lines_lose_newlines_witness :
  exists blocks,
    preview_lines (engine_of fixed_pitch) (mkFont "Arial" 12 Weight.Normal "")
                  ("ab" ++ NL ++ NL ++ "cd ef") 50
    = Ok (map join blocks)
    /\ List.concat blocks = ["ab"; "cd"; "ef"].
Proof.
  destruct (wrapped_lines_lose_newlines fixed_pitch
              (mkFont "Arial" 12 Weight.Normal "")
              ("ab" ++ NL ++ NL ++ "cd ef") 50 eq_refl)
    as (blocks & E & Hcat & _).
  exists blocks. split; [exact E|exact Hcat].
Defined.

(** ** Vertical placement *)

Lemma baselines_S (y h : Z) (n : nat) :
  baselines y h (S n) = y :: baselines (y + h) h n.
Proof.
  unfold baselines. cbn [seq map]. f_equal; [lia|].
  rewrite <- seq_shift, map_map. apply map_ext. intros i. lia.
Qed.

Lemma sum_from (l : list Z) (acc : Z) :
  fold_left Z.add l acc = acc + fold_left Z.add l 0.
Proof.
  revert acc. induction l as [|x l IH]; intros acc; cbn; [lia|].
  rewrite (IH (acc + x)), (IH x). lia.
Qed.

Lemma sum_equal_heights {A : Type} (h : Z) (l : list A) :
  sum (map (fun _ => h) l) = Z.of_nat (List.length l) * h.
Proof.
  unfold sum. induction l as [|x l IH]; [reflexivity|].
  cbn [map fold_left List.length]. rewrite sum_from, IH. lia.
Qed.

Section Rows.
Variable m : Metrics.
Variable w : Widget.
Variable font : QFont.

(** The loop draws the first [k] lines, one line spacing apart; each of
    them ends above the bottom edge, and line [k], if there is one, would
    not. *)
Lemma visible_rows_prefix (lines : list string) (y : Z) :
  exists k,
    (k <= List.length lines)%nat
    /\ visible_rows m w font
         (combine lines (map (fun _ => lsp m font) lines)) y
       = combine (firstn k lines) (baselines y (lsp m font) k)
    /\ (forall i, (i < k)%nat ->
          y + Z.of_nat i * lsp m font - asc m font + lsp m font
          <= rect_height w)
    /\ ((k < List.length lines)%nat ->
        rect_height w
        < y + Z.of_nat k * lsp m font - asc m font + lsp m font).
Proof.
  revert y. induction lines as [|line lines IH]; intros y.
  - exists 0%nat. cbn. repeat split; lia.
  - cbn [map combine visible_rows].
    destruct (Z.gtb_spec (y - asc m font + lsp m font) (rect_height w))
      as [Hout|Hin].
    + exists 0%nat. cbn. repeat split; lia.
    + destruct (IH (y + lsp m font)) as (k & Hk & E & Hfit & Hstop).
      exists (S k). rewrite E, baselines_S. cbn [firstn combine List.length].
      split; [lia|]. split; [reflexivity|]. split.
      * intros [|i] Hi; [lia|]. specialize (Hfit i ltac:(lia)). lia.
      * intros Hlt. specialize (Hstop ltac:(lia)). lia.
Qed.

(** With room for all lines below the start, every line is drawn. *)
Lemma visible_rows_all (lines : list string) (y : Z) :
  0 <= lsp m font ->
  y - asc m font + Z.of_nat (List.length lines) * lsp m font
  <= rect_height w ->
  visible_rows m w font (combine lines (map (fun _ => lsp m font) lines)) y
  = combine lines (baselines y (lsp m font) (List.length lines)).
Proof.
  intros Hh. revert y. induction lines as [|line lines IH]; intros y Hroom.
  - reflexivity.
  - cbn [map combine visible_rows List.length] in *.
    destruct (Z.gtb_spec (y - asc m font + lsp m font) (rect_height w))
      as [Hout|Hin]; [nia|].
    rewrite baselines_S. cbn [combine]. f_equal. apply IH. nia.
Qed.
End Rows.

(** X17.  A pass draws a beginning of the lines, one line spacing apart
    from the first baseline on: every line drawn ends at or above the
    bottom edge of the widget, and the pass stops at the first line that
    would end below it, drawing none of the lines after it. *)
Theorem drawn_lines_stay_inside (m : Metrics) (w : Widget) :
  exists lines k,
    preview_lines (engine_of m) (main_font w) (text w) (rect_width w - 20)
      = Ok lines
    /\ (k <= List.length lines)%nat
    /\ render (engine_of m) w
       = Ok (mkPixmap (rect_width w) (rect_height w)
               (flat_map (row_ops m w (main_font w) (font_color w))
                  (combine (firstn k lines)
                     (baselines
                        (start_y m w (main_font w)
                           (map (fun _ => lsp m (main_font w)) lines))
                        (lsp m (main_font w)) k))))
    /\ (forall i, (i < k)%nat ->
          start_y m w (main_font w)
                  (map (fun _ => lsp m (main_font w)) lines)
          + Z.of_nat i * lsp m (main_font w) - asc m (main_font w)
          + lsp m (main_font w)
          <= rect_height w)
    /\ ((k < List.length lines)%nat ->
        rect_height w
        < start_y m w (main_font w)
                  (map (fun _ => lsp m (main_font w)) lines)
          + Z.of_nat k * lsp m (main_font w) - asc m (main_font w)
          + lsp m (main_font w)).
Proof.
  destruct (render_ops m w) as (lines & E & Hr).
  destruct (visible_rows_prefix m w (main_font w) lines
              (start_y m w (main_font w)
                 (map (fun _ => lsp m (main_font w)) lines)))
    as (k & Hk & Ev & Hfit & Hstop).
  exists lines, k. rewrite Hr, Ev. auto.
Qed.

(** X18.  When the lines are at most 20 less high together than the
    widget, all of them are drawn, the first baseline 10 below the ascent
    and the others one line spacing apart (the line spacing not being
    negative). *)
Theorem short_text_all_drawn (m : Metrics) (w : Widget)
    (lines : list string) :
  0 <= lsp m (main_font w) ->
  preview_lines (engine_of m) (main_font w) (text w) (rect_width w - 20)
    = Ok lines ->
  Z.of_nat (List.length lines) * lsp m (main_font w) <= rect_height w - 20 ->
  render (engine_of m) w
  = Ok (mkPixmap (rect_width w) (rect_height w)
          (flat_map (row_ops m w (main_font w) (font_color w))
             (combine lines
                (baselines (10 + asc m (main_font w)) (lsp m (main_font w))
                           (List.length lines))))).
Proof.
  intros Hh E Hroom.
  destruct (render_ops m w) as (lines' & E' & Hr).
  rewrite E in E'. inversion E'; subst lines'. rewrite Hr.
  unfold start_y. rewrite sum_equal_heights.
  destruct (Z.gtb_spec (Z.of_nat (List.length lines) * lsp m (main_font w))
                       (rect_height w - 20)); [lia|].
  rewrite visible_rows_all; [reflexivity|exact Hh|lia].
Qed.

Lemma short_text_all_drawn_witness :
  exists pm,
    render (engine_of fixed_pitch) (sample_widget ("Hi" ++ NL ++ "yo") 600 100)
      = Ok pm
    /\ map dt_y (filter (fun op => negb (is_name_of
                                          (sample_widget ("Hi" ++ NL ++ "yo")
                                                         600 100) op))
                       (pm_ops pm))
       = [34; 62].
Proof.
  eexists. split.
  - apply (short_text_all_drawn fixed_pitch
             (sample_widget ("Hi" ++ NL ++ "yo") 600 100) ["Hi"; "yo"]);
      [vm_compute; discriminate | reflexivity | vm_compute; discriminate].
  - reflexivity.
Defined.

(** ** The weight slider, again *)

(** X19.  On the slider's range 0..99 the weight is always defined and
    never decreases as the value grows; every value from 89 to 99 gives
    the heaviest weight. *)
Theorem slider_weight_total_monotone (v1 v2 : Z) :
  0 <= v1 <= v2 ->
  v2 <= 99 ->
  (exists w1 w2,
     _slider_value_to_weight v1 = Some w1
     /\ _slider_value_to_weight v2 = Some w2
     /\ Weight.rank w1 <= Weight.rank w2)
  /\ (89 <= v1 -> _slider_value_to_weight v1 = Some Weight.Black).
Proof.
  intros H _.
  destruct (slider_index v1) as [w1 [E1 R1]]; [lia|].
  destruct (slider_index v2) as [w2 [E2 R2]]; [lia|].
  split.
  - exists w1, w2. repeat split; try assumption.
    rewrite R1, R2.
    assert (v1 * 100 / 1111 <= v2 * 100 / 1111)
      by (apply Z.div_le_mono; lia).
    lia.
  - intros H89. rewrite E1. f_equal.
    assert (8 <= v1 * 100 / 1111)
      by (apply Z.div_le_lower_bound; lia).
    assert (Weight.rank w1 = 8) by lia.
    destruct w1; cbn in *; congruence.
Qed.

Lemma slider_weight_total_monotone_witness :
  _slider_value_to_weight 95 = Some Weight.Black.
Proof.
  apply (proj2 (slider_weight_total_monotone 95 99
                  ltac:(split; vm_compute; discriminate)
                  ltac:(vm_compute; discriminate)));
    vm_compute; discriminate.
Defined.

Lemma label_lags_range (n : nat) :
  (n < 100)%nat -> label_lags (Z.of_nat n) = true.
Proof.
  intros H.
  assert (Hall : forallb (fun k => label_lags (Z.of_nat k)) (seq 0 100) = true)
    by (vm_compute; reflexivity).
  rewrite forallb_forall in Hall. apply Hall, in_seq. lia.
Qed.

(** X20.  On the slider's range the label names the weight that is
    applied or the next lighter one, never a heavier one; in particular
    the heaviest weight is never named. *)
Theorem weight_label_lags (value : Z) :
  0 <= value <= 99 ->
  exists applied named,
    _slider_value_to_weight value = Some applied
    /\ named_weight (_update_font_weight value) = Some named
    /\ Weight.rank named <= Weight.rank applied <= Weight.rank named + 1
    /\ named <> Weight.Black.
Proof.
  intros H.
  pose proof (label_lags_range (Z.to_nat value) ltac:(lia)) as Hl.
  rewrite Z2Nat.id in Hl by lia. unfold label_lags in Hl.
  destruct (_slider_value_to_weight value) as [applied|]; [|discriminate].
  destruct (named_weight (_update_font_weight value)) as [named|] eqn:En;
    [|discriminate].
  apply andb_true_iff in Hl. destruct Hl as [H1 H2].
  exists applied, named. repeat split; try lia.
  intros ->. unfold named_weight in En.
  repeat match type of En with
         | (if ?b then _ else _) = _ => destruct b; [discriminate|]
         end.
  discriminate.
Qed.

Lemma weight_label_lags_witness :
  exists applied named,
    _slider_value_to_weight 99 = Some applied
    /\ named_weight (_update_font_weight 99) = Some named
    /\ Weight.rank named <= Weight.rank applied <= Weight.rank named + 1
    /\ named <> Weight.Black.
Proof.
  apply weight_label_lags. split; vm_compute; discriminate.
Defined.

(** ** The loader and the search together *)

(** X21.  Every loaded font is found by searching for its family and by
    searching for its style, whatever the case of the letters typed (for
    ASCII names and texts): any text that is the family or the style up
    to case finds it. *)
Theorem search_finds_loaded (percent : Z -> Z -> Z) (db : FontDb)
    (name : string) (font : QFont) (text : string) :
  In (name, font) (snd (run percent db)) ->
  is_ascii name = true ->
  is_ascii text = true ->
  lower text = lower (family font) \/ lower text = lower (styleName font) ->
  In (name, font) (_filter_fonts (snd (run percent db)) text).
Proof.
  intros Hin _ _ Htext.
  assert (Hname : name = family font ++ " - " ++ styleName font).
  { rewrite loaded_list_eq in Hin. apply in_flat_map in Hin.
    destruct Hin as ([fam styles] & _ & Hin).
    unfold family_fonts in Hin. apply in_map_iff in Hin.
    destruct Hin as (style & E & _). now inversion E. }
  assert (Hfam : contains (lower (family font)) (lower name) = true).
  { apply contains_lower, contains_iff.
    exists "", (" - " ++ styleName font). now rewrite Hname. }
  assert (Hsty : contains (lower (styleName font)) (lower name) = true).
  { apply contains_lower, contains_iff.
    exists (family font ++ " - "), "".
    now rewrite Hname, append_nil_r, append_assoc. }
  unfold _filter_fonts. apply filter_In. split; [exact Hin|].
  cbn [fst]. destruct Htext as [-> | ->]; assumption.
Qed.

Lemma search_finds_loaded_witness :
  In ("Arial - Bold", mkFont "Arial" 12 Weight.Normal "Bold")
     (_filter_fonts
        (snd (run (fun c t => c * 100 / t) [("Arial", ["Regular"; "Bold"])]))
        "ARIAL").
Proof.
  apply (search_finds_loaded (fun c t => c * 100 / t)
           [("Arial", ["Regular"; "Bold"])] "Arial - Bold"
           (mkFont "Arial" 12 Weight.Normal "Bold") "ARIAL"
           (or_intror (or_introl eq_refl)) eq_refl eq_refl
           (or_introl eq_refl)).
Defined.

(** ** A render that fails *)

(** X22.  A failure is not remembered: a pass that finds the cache empty
    and whose render raises leaves the widget exactly as it was, so the
    next pass renders, raises and prints again. *)
Theorem failed_render_retried (env : QtEngine) (w : Widget) (e : string) :
  cache_pixmap w = None ->
  render env w = Raise e ->
  paintEvent env w = (w, [UpdateCache; Print e])
  /\ paintEvent env (fst (paintEvent env w)) = (w, [UpdateCache; Print e]).
Proof.
  intros Hc Hr.
  assert (E : paintEvent env w = (w, [UpdateCache; Print e])).
  { rewrite (paintEvent_empty env w Hc), Hr.
    destruct w; cbn in Hc; subst; reflexivity. }
  rewrite E. split; [reflexivity|exact E].
Qed.

Lemma failed_render_retried_witness :
  paintEvent broken_engine
    (fst (paintEvent broken_engine (sample_widget "Hello" 600 100)))
  = (sample_widget "Hello" 600 100, [UpdateCache; Print "no metrics"]).
Proof.
  exact (proj2 (failed_render_retried broken_engine
                  (sample_widget "Hello" 600 100) "no metrics"
                  eq_refl eq_refl)).
Defined.

Lemma drawn_lines_stay_inside_witness :
  exists lines k,
    preview_lines (engine_of fixed_pitch)
      (main_font (sample_widget ("Hi" ++ NL ++ "yo") 600 50))
      ("Hi" ++ NL ++ "yo") (600 - 20) = Ok lines
    /\ (k <= List.length lines)%nat.
Proof.
  destruct (drawn_lines_stay_inside fixed_pitch
              (sample_widget ("Hi" ++ NL ++ "yo") 600 50))
    as (lines & k & E & Hk & _).
  exists lines, k. split; [exact E|exact Hk].
Defined.

Example ex_bottom_cut :
  option_map (fun pm => map dt_text (pm_ops pm))
    (match render (engine_of fixed_pitch)
             (sample_widget ("Hi" ++ NL ++ "yo") 600 50) with
     | Ok pm => Some pm
     | Raise _ => None
     end)
  = Some ["Hi"; "Arial - Bold"].
Proof. reflexivity. Qed.
